(** * PersistentMap: a shallow embedding of [persistent_map.h]

    The header declares [persistent::map<Key, T, Compare, Allocator>].  Nodes
    are reached through [std::shared_ptr<node>] and raw [node*]; both are
    modelled as optional addresses into an explicit store of nodes, so that
    sharing between versions of a map is visible.  Code that reads or
    allocates nodes lives in a small state-and-error monad over that store. *)

From Stdlib Require Import String.
From stdpp Require Import gmap list.

Local Open Scope N_scope.

(** ** Machine integers *)

(** [size_t] is taken to be 64 bits wide.  Values are kept in [N]; the only
    operations of the header that can wrap are the cursor's [++] and [--]. *)
Definition size_t_bits : N := 64.
Definition size_t_modulus : N := 2 ^ size_t_bits.
Definition size_t_succ (i : N) : N := (i + 1) mod size_t_modulus.
Definition size_t_pred (i : N) : N := (i + (size_t_modulus - 1)) mod size_t_modulus.

(** ** The store and its monad *)

Definition addr := positive.

(** [node_ptr] and [node*]: null or the address of a node. *)
Definition ptr := option addr.

Definition ptr_eqb (p q : ptr) : bool := bool_decide (p = q).

Inductive fault :=
| NullDeref              (* a member of a null pointer was used *)
| Dangling               (* an address with no node behind it *)
| OutOfBounds            (* pointer arithmetic left the pointed-to object *)
| OutOfFuel              (* the step budget of a loop was exhausted *)
| InvariantFailed (message : string).

Inductive outcome (A : Type) :=
| Ok (a : A)
| Err (e : fault).
Arguments Ok {A} a.
Arguments Err {A} e.

Section Store.
Context {Node : Type}.

Definition M (A : Type) : Type := gmap addr Node → outcome (A * gmap addr Node).

Definition ret {A} (a : A) : M A := λ h, Ok (a, h).
Definition fail {A} (e : fault) : M A := λ _, Err e.
Definition bind {A B} (m : M A) (k : A → M B) : M B :=
  λ h, match m h with
       | Ok (a, h') => k a h'
       | Err e => Err e
       end.

(** [*p] for a non-null address. *)
Definition read (a : addr) : M Node :=
  λ h, match h !! a with
       | Some nd => Ok (nd, h)
       | None => Err Dangling
       end.

(** [*p] or [p->...] for a possibly null pointer. *)
Definition deref (p : ptr) : M Node :=
  match p with
  | Some a => read a
  | None => fail NullDeref
  end.

(** A new node object at an address not in use. *)
Definition alloc (nd : Node) : M addr :=
  λ h, let a := fresh (dom h) in Ok (a, <[a := nd]> h).

(** The value a computation returns, without the final store. *)
Definition eval {A} (m : M A) (h : gmap addr Node) : outcome A :=
  match m h with
  | Ok (a, _) => Ok a
  | Err e => Err e
  end.
End Store.
Arguments M : clear implicits.

Notation "'do' x <- m ;; k" := (bind m (λ x, k))
  (at level 10, x name, m at level 99, k at level 200).
Notation "'do' ' pat <- m ;; k" := (bind m (λ x, match x with pat => k end))
  (at level 10, pat pattern, m at level 99, k at level 200).

(** ** Nodes, cursors and the map handle, as in the header *)

Section Map.
Context {Key T : Type}.

(** [Compare]: a stateless function object, [comp a b] meaning [a] goes
    before [b]. *)
Variable comp : Key → Key → bool.

(** [typedef std::pair<const Key, T> value]. *)
Definition value : Type := Key * T.

(** [struct node]. *)
Record node := mk_node {
  _v : value;
  _n : N;
  _l : ptr;
  _r : ptr;
}.

Abbreviation heap := (gmap addr node).
Abbreviation Mn := (M node).

(** [node(value v) : _v(v), _n(0) {}]: both [shared_ptr] members are
    default-constructed, hence null. *)
Definition node_ctor (v : value) : node :=
  {| _v := v; _n := 0; _l := None; _r := None |}.

(** [node::left()] and [node::right()]: the raw pointer of the child. *)
Definition left (nd : node) : ptr := _l nd.
Definition right (nd : node) : ptr := _r nd.

(** [node::operator+]: the [do ... while] loop, one iteration per unit of
    fuel.  [next] is the loop variable; [current] and [left] are assigned
    in the body before they are read. *)
Fixpoint node_plus_loop (fuel : nat) (next : ptr) (rhs : N) : Mn ptr :=
  match fuel with
  | O => fail OutOfFuel
  | S fuel' =>
      let current := next in
      do nd <- deref next ;;                      (* next = next->right() *)
      let next := right nd in
      do nr <- deref next ;;                      (* left = next->left()  *)
      let lft := left nr in
      do '(next, rhs) <-
        match lft with
        | Some la =>                           (* if (left)            *)
            do ln <- read la ;;
            if rhs <? _n ln then ret (lft, rhs)
            else ret (next, rhs - _n ln)
        | None => ret (next, rhs)
        end ;;
      if negb (rhs =? 0) || ptr_eqb next lft   (* while (rhs || next == left) *)
      then node_plus_loop fuel' next rhs
      else ret current
  end.

Definition node_plus (fuel : nat) (this : addr) (rhs : N) : Mn ptr :=
  node_plus_loop fuel (Some this) rhs.

(** Built-in pointer arithmetic [p + idx] on a [node*].  Every node is an
    object of its own, not an element of an array, so the only offset that
    stays on a node is 0. *)
Definition ptr_offset (p : ptr) (idx : N) : Mn ptr :=
  if idx =? 0 then ret p else fail OutOfBounds.

(** [node::operator[]]: [return *(this + idx);].  [this] is a pointer, so
    the [+] here is the built-in one and not [node::operator+]. *)
Definition node_index (this : addr) (idx : N) : Mn node :=
  do p <- ptr_offset (Some this) idx ;; deref p.

(** The same body with [+] read as [node::operator+], that is
    the rank descent from [this] followed by a dereference. *)
Definition node_index_by_rank (fuel : nat) (this : addr) (idx : N) : Mn node :=
  do p <- node_plus fuel this idx ;; deref p.

(** [class iterator]. *)
Record iterator := mk_iterator {
  it_index : N;      (* _index *)
  it_root : ptr;     (* _root  *)
}.

Definition iterator_ctor (n : ptr) (index : N) : iterator :=
  {| it_index := index; it_root := n |}.
Definition iterator_incr (it : iterator) : iterator :=
  {| it_index := size_t_succ (it_index it); it_root := it_root it |}.
Definition iterator_decr (it : iterator) : iterator :=
  {| it_index := size_t_pred (it_index it); it_root := it_root it |}.
(** [iterator(const iterator& mit)]. *)
Definition iterator_copy (mit : iterator) : iterator :=
  {| it_index := it_index mit; it_root := it_root mit |}.
(** [operator++(int)]: [iterator tmp( *this); operator++(); return tmp;].
    The pair is the returned copy and the cursor itself afterwards. *)
Definition iterator_post_incr (it : iterator) : iterator * iterator :=
  let tmp := iterator_copy it in
  let it := iterator_incr it in
  (tmp, it).
(** [operator--(int)]. *)
Definition iterator_post_decr (it : iterator) : iterator * iterator :=
  let tmp := iterator_copy it in
  let it := iterator_decr it in
  (tmp, it).
Definition iterator_eq (lhs rhs : iterator) : bool :=
  it_index lhs =? it_index rhs.
Definition iterator_ne (lhs rhs : iterator) : bool :=
  negb (it_index lhs =? it_index rhs).

(** [iterator::operator*]: [return _root[index];] with [index] read as the
    member [_index].  [_root] is a [node*], so the subscript is the
    built-in [*(_root + _index)]. *)
Definition iterator_deref (it : iterator) : Mn node :=
  do p <- ptr_offset (it_root it) (it_index it) ;; deref p.
(** [iterator::operator->]: [return _root + index;]. *)
Definition iterator_arrow (it : iterator) : Mn ptr :=
  ptr_offset (it_root it) (it_index it).

(** The subscript read as [node::operator[]] of the root node, with the
    rank descent of [node_index_by_rank]. *)
Definition iterator_deref_by_rank (fuel : nat) (it : iterator) : Mn node :=
  match it_root it with
  | Some r => node_index_by_rank fuel r (it_index it)
  | None => fail NullDeref
  end.

(** [class const_iterator]: the same members and bodies. *)
Record const_iterator := mk_const_iterator {
  cit_index : N;
  cit_root : ptr;
}.

Definition const_iterator_ctor (n : ptr) (index : N) : const_iterator :=
  {| cit_index := index; cit_root := n |}.
Definition const_iterator_incr (it : const_iterator) : const_iterator :=
  {| cit_index := size_t_succ (cit_index it); cit_root := cit_root it |}.
Definition const_iterator_decr (it : const_iterator) : const_iterator :=
  {| cit_index := size_t_pred (cit_index it); cit_root := cit_root it |}.
(** [operator++(int)] and [operator--(int)] of [const_iterator]; [tmp] is
    made by the implicit copy constructor. *)
Definition const_iterator_post_incr (it : const_iterator)
    : const_iterator * const_iterator :=
  let tmp := it in
  let it := const_iterator_incr it in
  (tmp, it).
Definition const_iterator_post_decr (it : const_iterator)
    : const_iterator * const_iterator :=
  let tmp := it in
  let it := const_iterator_decr it in
  (tmp, it).
Definition const_iterator_eq (lhs rhs : const_iterator) : bool :=
  cit_index lhs =? cit_index rhs.
Definition const_iterator_ne (lhs rhs : const_iterator) : bool :=
  negb (cit_index lhs =? cit_index rhs).
Definition const_iterator_deref (it : const_iterator) : Mn node :=
  do p <- ptr_offset (cit_root it) (cit_index it) ;; deref p.
Definition const_iterator_arrow (it : const_iterator) : Mn ptr :=
  ptr_offset (cit_root it) (cit_index it).
Definition const_iterator_deref_by_rank (fuel : nat) (it : const_iterator) : Mn node :=
  match cit_root it with
  | Some r => node_index_by_rank fuel r (cit_index it)
  | None => fail NullDeref
  end.

(** [class value_compare]. *)
Record value_compare := mk_value_compare {
  vc_comp : Key → Key → bool;      (* comp *)
}.
(** [value_compare(Compare c) : comp(c) {}]. *)
Definition value_compare_ctor (c : Key → Key → bool) : value_compare :=
  {| vc_comp := c |}.
(** [value_compare::operator()]: [return comp(x.first, y.first);]. *)
Definition value_compare_call (vc : value_compare) (x y : value) : bool :=
  vc_comp vc (fst x) (fst y).

(** [class map]: its only data member is [node_ptr _root]. *)
Record map := mk_map {
  map_root : ptr;                   (* _root *)
}.

(** [explicit map(const Compare&, const Allocator&) {}]. *)
Definition map_ctor : map := {| map_root := None |}.

(** [size()]: [return _root ? _root->_n : 0;]. *)
Definition size (m : map) : Mn N :=
  match map_root m with
  | Some a => do nd <- read a ;; ret (_n nd)
  | None => ret 0
  end.

(** [empty()]: [return size() == 0;]. *)
Definition empty (m : map) : Mn bool :=
  do n <- size m ;; ret (n =? 0).

(** [max_size()]. *)
Definition max_size (m : map) : N := size_t_modulus - 1.

(** The [invariant] macro of [main.cpp]: [invariantFailed] reports and
    terminates. *)
Definition invariant (expression : bool) (message : string) : Mn unit :=
  if expression then ret tt else fail (InvariantFailed message).

(** [main]. *)
Definition main : Mn Z :=
  let m := map_ctor in
  do e <- empty m ;;
  do _ <- invariant e "m.empty()" ;;
  do n <- size m ;;
  do _ <- invariant (n =? 0) "m.size() == 0" ;;
  ret 0%Z.

(** Modelled from the spec: [key_comp] and [value_comp] are declared in the
    header and defined nowhere.  The comparator of a handle is the [Compare]
    of the map, and [value_comp] wraps it through the constructor of
    [value_compare]. *)
Definition key_comp (m : map) : Key → Key → bool := comp.
Definition value_comp (m : map) : value_compare :=
  value_compare_ctor (key_comp m).

End Map.

(** ** The tree engine and the handle operations of the design

    [insert], [erase] and [find] are declared in the header and defined
    nowhere.  The definitions of this section follow the design document of
    the repository: pure functions over nodes that never change an existing
    node and build new nodes along the search path. *)

Section Engine.
Context {Key T : Type}.
Variable comp : Key → Key → bool.

(** The design leaves the weight-balance constant and the comparison that
    picks a single or a double rotation open.  [balance_c] is the constant
    [c] of [size(left) <= c * size(right) + 1]; [prefer_single inner outer]
    looks at the two subtree sizes of the heavier child. *)
Variable balance_c : N.
Variable prefer_single : N → N → bool.

Abbreviation Mn := (M (@node Key T)).

(** The key of a node, [_v.first]. *)
Definition key_of (nd : @node Key T) : Key := fst (_v nd).

(** Modelled from the spec: [size(p)] of a subtree reference, where an
    absent subtree contributes 0. *)
Definition subtree_size (p : ptr) : Mn N :=
  match p with
  | Some a => do nd <- read a ;; ret (_n nd)
  | None => ret 0
  end.

(** Modelled from the spec: construction of a new Node over two subtree
    references, [size] recomputed from the children.  The design counts
    without a width, so the sum is taken in [N]. *)
Definition make_node (v : value) (l r : ptr) : Mn ptr :=
  do nl <- subtree_size l ;;
  do nr <- subtree_size r ;;
  do a <- alloc {| _v := v; _n := 1 + nl + nr; _l := l; _r := r |} ;;
  ret (Some a).

(** Modelled from the spec: the single rotation of the weight-balance
    repair that brings the right child up, on a node that is about to be
    built from [v], [l] and [r].  Like the other rotations it only reads the
    children and builds new nodes. *)
Definition rotate_left (v : value) (l r : ptr) : Mn ptr :=
  do rn <- deref r ;;
  do l' <- make_node v l (_l rn) ;;
  make_node (_v rn) l' (_r rn).

(** Modelled from the spec: the double rotation that brings the left
    child of the right child up. *)
Definition rotate_left_double (v : value) (l r : ptr) : Mn ptr :=
  do rn <- deref r ;;
  do rl <- deref (_l rn) ;;
  do l' <- make_node v l (_l rl) ;;
  do r' <- make_node (_v rn) (_r rl) (_r rn) ;;
  make_node (_v rl) l' r'.

(** Modelled from the spec: the single rotation that brings the left child
    up. *)
Definition rotate_right (v : value) (l r : ptr) : Mn ptr :=
  do ln <- deref l ;;
  do r' <- make_node v (_r ln) r ;;
  make_node (_v ln) (_l ln) r'.

(** Modelled from the spec: the double rotation that brings the right
    child of the left child up. *)
Definition rotate_right_double (v : value) (l r : ptr) : Mn ptr :=
  do ln <- deref l ;;
  do lr <- deref (_r ln) ;;
  do l' <- make_node (_v ln) (_l ln) (_l lr) ;;
  do r' <- make_node v (_r lr) r ;;
  make_node (_v lr) l' r'.

(** An absent subtree reference. *)
Definition is_null (p : ptr) : bool :=
  match p with Some _ => false | None => true end.

(** Modelled from the spec: weight-balance repair at a rebuilt ancestor.
    When one side exceeds [c] times the other plus one, the heavier child
    comes up by a single or a double rotation. *)
Definition balance_repair (v : value) (l r : ptr) : Mn ptr :=
  do nl <- subtree_size l ;;
  do nr <- subtree_size r ;;
  if balance_c * nl + 1 <? nr then
    do rn <- deref r ;;
    do inner <- subtree_size (_l rn) ;;
    do outer <- subtree_size (_r rn) ;;
    if is_null (_l rn) || prefer_single inner outer
    then rotate_left v l r
    else rotate_left_double v l r
  else if balance_c * nr + 1 <? nl then
    do ln <- deref l ;;
    do inner <- subtree_size (_r ln) ;;
    do outer <- subtree_size (_l ln) ;;
    if is_null (_r ln) || prefer_single inner outer
    then rotate_right v l r
    else rotate_right_double v l r
  else make_node v l r.

(** Modelled from the spec: [find(root, key)], the BST descent with the
    comparator; the associated value or not-found. *)
Fixpoint tree_find (fuel : nat) (p : ptr) (k : Key) : Mn (option T) :=
  match fuel with
  | O => fail OutOfFuel
  | S fuel' =>
      match p with
      | None => ret None
      | Some a =>
          do nd <- read a ;;
          if comp k (key_of nd) then tree_find fuel' (_l nd) k
          else if comp (key_of nd) k then tree_find fuel' (_r nd) k
          else ret (Some (snd (_v nd)))
      end
  end.

(** Modelled from the spec: [rank_select(root, i)], the order-statistics
    descent. *)
Fixpoint rank_select (fuel : nat) (p : ptr) (i : N) : Mn ptr :=
  match fuel with
  | O => fail OutOfFuel
  | S fuel' =>
      do nd <- deref p ;;
      do ls <- subtree_size (_l nd) ;;
      if i <? ls then rank_select fuel' (_l nd) i
      else if i =? ls then ret p
      else rank_select fuel' (_r nd) (i - ls - 1)
  end.

(** Modelled from the spec: the in-order traversal of a subtree, as the
    sequence of its node references. *)
Fixpoint inorder_nodes (fuel : nat) (p : ptr) : Mn (list addr) :=
  match fuel with
  | O => fail OutOfFuel
  | S fuel' =>
      match p with
      | None => ret []
      | Some a =>
          do nd <- read a ;;
          do ls <- inorder_nodes fuel' (_l nd) ;;
          do rs <- inorder_nodes fuel' (_r nd) ;;
          ret (ls ++ a :: rs)
      end
  end.

(** Modelled from the spec: the in-order traversal of a subtree, as the
    sequence of its (key, value) pairs. *)
Fixpoint inorder (fuel : nat) (p : ptr) : Mn (list (@value Key T)) :=
  match fuel with
  | O => fail OutOfFuel
  | S fuel' =>
      match p with
      | None => ret []
      | Some a =>
          do nd <- read a ;;
          do ls <- inorder fuel' (_l nd) ;;
          do rs <- inorder fuel' (_r nd) ;;
          ret (ls ++ _v nd :: rs)
      end
  end.

(** Modelled from the spec: [insert(root, key, value)] by path copying.
    A new leaf where the key is absent, every ancestor rebuilt over the
    original untouched child and repaired; an existing key is rejected and
    the subtree handed back as it is.  The flag tells whether a key was
    added. *)
Fixpoint tree_insert (fuel : nat) (p : ptr) (k : Key) (x : T) : Mn (ptr * bool) :=
  match fuel with
  | O => fail OutOfFuel
  | S fuel' =>
      match p with
      | None => do p' <- make_node (k, x) None None ;; ret (p', true)
      | Some a =>
          do nd <- read a ;;
          if comp k (key_of nd) then
            do '(l', added) <- tree_insert fuel' (_l nd) k x ;;
            if added
            then do p' <- balance_repair (_v nd) l' (_r nd) ;; ret (p', true)
            else ret (p, false)
          else if comp (key_of nd) k then
            do '(r', added) <- tree_insert fuel' (_r nd) k x ;;
            if added
            then do p' <- balance_repair (_v nd) (_l nd) r' ;; ret (p', true)
            else ret (p, false)
          else ret (p, false)
      end
  end.

(** Modelled from the spec: the in-order successor of a node is the
    leftmost node of its right subtree. *)
Fixpoint tree_min (fuel : nat) (a : addr) : Mn (@value Key T) :=
  match fuel with
  | O => fail OutOfFuel
  | S fuel' =>
      do nd <- read a ;;
      match _l nd with
      | Some la => tree_min fuel' la
      | None => ret (_v nd)
      end
  end.

(** Modelled from the spec: [erase(root, key)].  A node with at most one
    child is spliced out by promoting that child; with two children the
    in-order successor is promoted and then erased from the right subtree.
    The path is rebuilt and repaired as for [insert]; an absent key hands
    the subtree back as it is.  The flag tells whether a key was removed. *)
Fixpoint tree_erase (fuel : nat) (p : ptr) (k : Key) : Mn (ptr * bool) :=
  match fuel with
  | O => fail OutOfFuel
  | S fuel' =>
      match p with
      | None => ret (None, false)
      | Some a =>
          do nd <- read a ;;
          if comp k (key_of nd) then
            do '(l', removed) <- tree_erase fuel' (_l nd) k ;;
            if removed
            then do p' <- balance_repair (_v nd) l' (_r nd) ;; ret (p', true)
            else ret (p, false)
          else if comp (key_of nd) k then
            do '(r', removed) <- tree_erase fuel' (_r nd) k ;;
            if removed
            then do p' <- balance_repair (_v nd) (_l nd) r' ;; ret (p', true)
            else ret (p, false)
          else
            match _l nd, _r nd with
            | None, r => ret (r, true)
            | l, None => ret (l, true)
            | Some _, Some ra =>
                do s <- tree_min fuel' ra ;;
                do '(r', _) <- tree_erase fuel' (_r nd) (fst s) ;;
                do p' <- balance_repair s (_l nd) r' ;;
                ret (p', true)
            end
      end
  end.

(** The step budget of the handle operations.  A descent never has more
    steps than the subtree has nodes, so the root's count bounds the
    recursion. *)
Definition fuel_of (n : N) : nat := S (N.to_nat n).

(** Modelled from the spec: [v.find(k)]. *)
Definition map_find (m : map) (k : Key) : Mn (option T) :=
  do n <- size m ;; tree_find (fuel_of n) (map_root m) k.

(** Modelled from the spec: [v.insert(k, x)], a new handle and the
    "added" flag. *)
Definition map_insert (m : map) (k : Key) (x : T) : Mn (map * bool) :=
  do n <- size m ;;
  do '(p, added) <- tree_insert (fuel_of n) (map_root m) k x ;;
  ret ({| map_root := p |}, added).

(** Modelled from the spec: [v.erase(k)], a new handle and the "removed"
    flag. *)
Definition map_erase (m : map) (k : Key) : Mn (map * bool) :=
  do n <- size m ;;
  do '(p, removed) <- tree_erase (fuel_of n) (map_root m) k ;;
  ret ({| map_root := p |}, removed).

(** Modelled from the spec: [clear], the empty handle. *)
Definition map_clear (m : map) : Mn map := ret map_ctor.

(** Modelled from the spec: the in-order sequence of a handle. *)
Definition map_to_list (m : map) : Mn (list (@value Key T)) :=
  do n <- size m ;; inorder (fuel_of n) (map_root m).

(** Modelled from the spec: the mutating operations of a handle, each of
    which returns a new handle. *)
Inductive operation :=
| OpInsert (k : Key) (x : T)
| OpErase (k : Key)
| OpClear.

(** One operation on a handle; the flag is dropped. *)
Definition apply_operation (m : map) (o : operation) : Mn map :=
  match o with
  | OpInsert k x => do '(m', _) <- map_insert m k x ;; ret m'
  | OpErase k => do '(m', _) <- map_erase m k ;; ret m'
  | OpClear => map_clear m
  end.

(** Operations one after the other, each on the handle the one before
    returned. *)
Fixpoint apply_operations (m : map) (os : list operation) : Mn map :=
  match os with
  | [] => ret m
  | o :: os' => do m' <- apply_operation m o ;; apply_operations m' os'
  end.

End Engine.

(** ** What a reference denotes: trees in the store *)

Section Model.
Context {Key T : Type}.
Variable comp : Key → Key → bool.
Variable balance_c : N.
Variable prefer_single : N → N → bool.

Abbreviation heap := (gmap addr (@node Key T)).
Abbreviation val := (@value Key T).

(** The tree below a reference, without the addresses: values and stored
    counts. *)
Inductive shape :=
| SNil
| SBin (l : shape) (v : val) (n : N) (r : shape).

(** [is_tree h p s]: following [p] through the store [h] reads off exactly
    the finite tree [s]. *)
Fixpoint is_tree (h : heap) (p : ptr) (s : shape) : Prop :=
  match s with
  | SNil => p = None
  | SBin l v n r =>
      ∃ a pl pr, p = Some a
                 ∧ h !! a = Some {| _v := v; _n := n; _l := pl; _r := pr |}
                 ∧ is_tree h pl l ∧ is_tree h pr r
  end.

(** [tree_nodes h p s ns]: as [is_tree], with the addresses [ns] of the
    nodes of [s] in order. *)
Fixpoint tree_nodes (h : heap) (p : ptr) (s : shape) (ns : list addr) : Prop :=
  match s with
  | SNil => p = None ∧ ns = []
  | SBin l v n r =>
      ∃ a pl pr ls rs, p = Some a
                       ∧ h !! a = Some {| _v := v; _n := n; _l := pl; _r := pr |}
                       ∧ tree_nodes h pl l ls ∧ tree_nodes h pr r rs
                       ∧ ns = ls ++ a :: rs
  end.

Definition s_size (s : shape) : N :=
  match s with SNil => 0 | SBin _ _ n _ => n end.

Fixpoint s_height (s : shape) : nat :=
  match s with
  | SNil => O
  | SBin l _ _ r => S (Nat.max (s_height l) (s_height r))
  end.

Fixpoint s_elements (s : shape) : list val :=
  match s with
  | SNil => []
  | SBin l v _ r => s_elements l ++ v :: s_elements r
  end.

(** The size invariant: every stored count is one more than the counts of
    the two subtrees. *)
Fixpoint size_inv (s : shape) : Prop :=
  match s with
  | SNil => True
  | SBin l _ n r => n = 1 + s_size l + s_size r ∧ size_inv l ∧ size_inv r
  end.

Fixpoint all_keys (P : Key → Prop) (s : shape) : Prop :=
  match s with
  | SNil => True
  | SBin l v _ r => all_keys P l ∧ P (fst v) ∧ all_keys P r
  end.

(** The ordering invariant: keys of the left subtree go before the key of
    the node, keys of the right subtree after it. *)
Fixpoint bst_inv (s : shape) : Prop :=
  match s with
  | SNil => True
  | SBin l v _ r =>
      all_keys (λ k, comp k (fst v) = true) l
      ∧ all_keys (λ k, comp (fst v) k = true) r
      ∧ bst_inv l ∧ bst_inv r
  end.

(** The engine on shapes. *)
Definition s_make (v : val) (l r : shape) : shape :=
  SBin l v (1 + s_size l + s_size r) r.

Definition s_rotate_left (v : val) (l r : shape) : shape :=
  match r with
  | SBin rl rv _ rr => s_make rv (s_make v l rl) rr
  | SNil => s_make v l r
  end.

Definition s_rotate_left_double (v : val) (l r : shape) : shape :=
  match r with
  | SBin (SBin rll rlv _ rlr) rv _ rr =>
      s_make rlv (s_make v l rll) (s_make rv rlr rr)
  | _ => s_make v l r
  end.

Definition s_rotate_right (v : val) (l r : shape) : shape :=
  match l with
  | SBin ll lv _ lr => s_make lv ll (s_make v lr r)
  | SNil => s_make v l r
  end.

Definition s_rotate_right_double (v : val) (l r : shape) : shape :=
  match l with
  | SBin ll lv _ (SBin lrl lrv _ lrr) =>
      s_make lrv (s_make lv ll lrl) (s_make v lrr r)
  | _ => s_make v l r
  end.

Definition s_is_nil (s : shape) : bool :=
  match s with SNil => true | SBin _ _ _ _ => false end.

Definition s_balance (v : val) (l r : shape) : shape :=
  if balance_c * s_size l + 1 <? s_size r then
    match r with
    | SBin rl _ _ rr =>
        if s_is_nil rl || prefer_single (s_size rl) (s_size rr)
        then s_rotate_left v l r
        else s_rotate_left_double v l r
    | SNil => s_make v l r
    end
  else if balance_c * s_size r + 1 <? s_size l then
    match l with
    | SBin ll _ _ lr =>
        if s_is_nil lr || prefer_single (s_size lr) (s_size ll)
        then s_rotate_right v l r
        else s_rotate_right_double v l r
    | SNil => s_make v l r
    end
  else s_make v l r.

Fixpoint s_find (s : shape) (k : Key) : option T :=
  match s with
  | SNil => None
  | SBin l v _ r =>
      if comp k (fst v) then s_find l k
      else if comp (fst v) k then s_find r k
      else Some (snd v)
  end.

Fixpoint s_insert (s : shape) (k : Key) (x : T) : shape * bool :=
  match s with
  | SNil => (s_make (k, x) SNil SNil, true)
  | SBin l v n r =>
      if comp k (fst v) then
        let '(l', added) := s_insert l k x in
        if added then (s_balance v l' r, true) else (s, false)
      else if comp (fst v) k then
        let '(r', added) := s_insert r k x in
        if added then (s_balance v l r', true) else (s, false)
      else (s, false)
  end.

Fixpoint s_min (s : shape) (d : val) : val :=
  match s with
  | SNil => d
  | SBin l v _ _ => s_min l v
  end.

Fixpoint s_erase (s : shape) (k : Key) : shape * bool :=
  match s with
  | SNil => (SNil, false)
  | SBin l v n r =>
      if comp k (fst v) then
        let '(l', removed) := s_erase l k in
        if removed then (s_balance v l' r, true) else (s, false)
      else if comp (fst v) k then
        let '(r', removed) := s_erase r k in
        if removed then (s_balance v l r', true) else (s, false)
      else
        match l, r with
        | SNil, _ => (r, true)
        | _, SNil => (l, true)
        | SBin _ _ _ _, SBin rl rv _ _ =>
            let s := s_min rl rv in
            let '(r', _) := s_erase r (fst s) in
            (s_balance s l r', true)
        end
  end.

(** Sorted association lists, the contents of a tree read in order. *)
Fixpoint l_find (l : list val) (k : Key) : option T :=
  match l with
  | [] => None
  | e :: l' =>
      if comp k (fst e) then None
      else if comp (fst e) k then l_find l' k
      else Some (snd e)
  end.

Fixpoint l_insert (l : list val) (k : Key) (x : T) : list val :=
  match l with
  | [] => [(k, x)]
  | e :: l' =>
      if comp k (fst e) then (k, x) :: l
      else if comp (fst e) k then e :: l_insert l' k x
      else l
  end.

Fixpoint l_sorted (l : list val) : Prop :=
  match l with
  | [] => True
  | e :: l' => Forall (λ b, comp (fst e) (fst b) = true) l' ∧ l_sorted l'
  end.

(** A call that returns: it yields a value, leaves every node of the
    store it started from in place, and establishes [Q]. *)
Definition returns {A} (m : M (@node Key T) A) (h : heap)
    (Q : A → heap → Prop) : Prop :=
  ∃ a h', m h = Ok (a, h') ∧ h ⊆ h' ∧ Q a h'.

End Model.

(** ** Concrete maps, with [int] keys and values as in [main] *)

Definition int_node (k x : Z) (n : N) (l r : ptr) : @node Z Z :=
  {| _v := (k, x); _n := n; _l := l; _r := r |}.

(** One node holding (5, 50), counted as one element. *)
Definition single_heap : gmap addr (@node Z Z) :=
  {[ 1%positive := int_node 5 50 1 None None ]}.
Definition single_shape : @shape Z Z := SBin SNil (5, 50)%Z 1 SNil.

(** A root holding (2, 20) whose left child holds (1, 10). *)
Definition pair_heap : gmap addr (@node Z Z) :=
  <[ 1%positive := int_node 2 20 2 (Some 2%positive) None ]>
    {[ 2%positive := int_node 1 10 1 None None ]}.
Definition pair_shape : @shape Z Z :=
  SBin (SBin SNil (1, 10)%Z 1 SNil) (2, 20)%Z 2 SNil.

(** Two cursors at rank 0 of two different roots. *)
Definition cursor_a : iterator := iterator_ctor (Some 1%positive) 0.
Definition cursor_b : iterator := iterator_ctor (Some 2%positive) 0.

(** The parameters the examples run with: [c = 3], and a single rotation
    when the inner grandchild is less than twice the outer one. *)
Definition example_c : N := 3.
Definition example_single (inner outer : N) : bool := inner <? 2 * outer.

(** A root (1, 10) with a right child (3, 30) that has the children (2, 20)
    and (4, 40): in order, the nodes at addresses 1, 3, 2, 4. *)
Definition quad_heap : gmap addr (@node Z Z) :=
  <[ 1%positive := int_node 1 10 4 None (Some 2%positive) ]>
  (<[ 2%positive := int_node 3 30 3 (Some 3%positive) (Some 4%positive) ]>
  (<[ 3%positive := int_node 2 20 1 None None ]>
   {[ 4%positive := int_node 4 40 1 None None ]})).
Definition quad_shape : @shape Z Z :=
  SBin SNil (1, 10)%Z 4
    (SBin (SBin SNil (2, 20)%Z 1 SNil) (3, 30)%Z 3 (SBin SNil (4, 40)%Z 1 SNil)).

(** The handle on the two-node tree, and the operations of the scenarios
    of the design: three insertions into the empty map, then an erasure. *)
Definition pair_map : map := {| map_root := Some 1%positive |}.
Definition scenario_inserts : list (@operation Z Z) :=
  [OpInsert 1 10; OpInsert 2 20; OpInsert 3 30]%Z.
Definition scenario_further : list (@operation Z Z) :=
  [OpErase 2; OpInsert 0 5; OpClear; OpInsert 7 70]%Z.

(** The four-node store with one more node allocated, and cursors at the
    two ends of the index range. *)
Definition quad_heap_more : gmap addr (@node Z Z) :=
  <[ 9%positive := int_node 7 70 1 None None ]> quad_heap.
Definition quad_right_shape : @shape Z Z :=
  SBin (SBin SNil (2, 20)%Z 1 SNil) (3, 30)%Z 3 (SBin SNil (4, 40)%Z 1 SNil).
Definition quad_map : map := {| map_root := Some 1%positive |}.
Definition cursor_last : iterator :=
  iterator_ctor (Some 1%positive) (size_t_modulus - 1).
Definition const_cursor_last : const_iterator :=
  const_iterator_ctor (Some 1%positive) (size_t_modulus - 1).

(** * Properties of the header's code *)

Section Header.
Context {Key T : Type}.
Implicit Types (h : gmap addr (@node Key T)) (v : @value Key T).
Implicit Types (m : map) (a : addr).

Lemma size_unfold m h :
  size m h = match map_root m with
             | None => Ok (0, h)
             | Some a => match h !! a with
                         | Some nd => Ok (_n nd, h)
                         | None => Err Dangling
                         end
             end.
Proof.
  unfold size. destruct (map_root m) as [a|]; [|done].
  unfold bind, read. by destruct (h !! a).
Qed.

(** C6: a default-constructed map has size 0 and is empty; the size of any
    map is the count stored in its root node, or 0 without a root; the
    two checks of [main] pass and it returns 0. *)
Theorem size_is_root_count h :
  eval (size map_ctor) h = Ok 0
  ∧ eval (empty map_ctor) h = Ok true
  ∧ (∀ m, eval (size m) h =
          match map_root m with
          | None => Ok 0
          | Some a => match h !! a with
                      | Some nd => Ok (_n nd)
                      | None => Err Dangling
                      end
          end)
  ∧ main h = Ok (0%Z, h).
Proof.
  split_and!; try reflexivity.
  intros m. unfold eval. rewrite size_unfold.
  destruct (map_root m) as [a|]; [|done]. by destruct (h !! a).
Qed.

(** C9: the node constructor stores the count 0 and two absent children,
    so a map whose root is one freshly constructed node reports size 0 and
    empty although its in-order sequence has one element. *)
Theorem fresh_node_reports_empty v a h :
  _n (node_ctor v) = 0 ∧ _l (node_ctor v) = None ∧ _r (node_ctor v) = None
  ∧ eval (size {| map_root := Some a |}) (<[a := node_ctor v]> h) = Ok 0
  ∧ eval (empty {| map_root := Some a |}) (<[a := node_ctor v]> h) = Ok true
  ∧ is_tree (<[a := node_ctor v]> h) (Some a) (SBin SNil v 0 SNil)
  ∧ eval (inorder 2 (Some a)) (<[a := node_ctor v]> h) = Ok [v].
Proof.
  split_and!; try reflexivity.
  - unfold eval. rewrite size_unfold. simpl. by rewrite lookup_insert_eq.
  - unfold eval, empty, bind. rewrite size_unfold. simpl.
    by rewrite lookup_insert_eq.
  - simpl. exists a, None, None. by rewrite lookup_insert_eq.
  - unfold eval. simpl. unfold bind, read. by rewrite lookup_insert_eq.
Qed.

(** C4, at the constructor: the count a constructed node stores is 0, not
    1 + 0 + 0, so the one-node tree it forms breaks the size invariant. *)
Theorem node_ctor_breaks_size_inv v a h :
  _n (node_ctor v) = 0
  ∧ is_tree (<[a := node_ctor v]> h) (Some a) (SBin SNil v (_n (node_ctor v)) SNil)
  ∧ ¬ size_inv (SBin SNil v (_n (node_ctor v)) SNil).
Proof.
  split_and!; [done| |].
  - simpl. exists a, None, None. by rewrite lookup_insert_eq.
  - simpl. intros [? _]. lia.
Qed.

(** C7, as the code has it: two cursors are equal exactly when their rank
    indices are equal, whatever their roots; [!=] is the negation.  The
    same holds for [const_iterator]. *)
Theorem iterator_eq_index_only (x y : iterator) (cx cy : const_iterator) :
  (iterator_eq x y = true ↔ it_index x = it_index y)
  ∧ iterator_ne x y = negb (iterator_eq x y)
  ∧ (const_iterator_eq cx cy = true ↔ cit_index cx = cit_index cy)
  ∧ const_iterator_ne cx cy = negb (const_iterator_eq cx cy).
Proof.
  unfold iterator_eq, iterator_ne, const_iterator_eq, const_iterator_ne.
  split_and!; try reflexivity; apply N.eqb_eq.
Qed.

(** C10: [value_comp()(x, y)] is [key_comp()(x.first, y.first)]; the same
    holds for a [value_compare] over any comparator, and the mapped values
    play no part. *)
Theorem value_comp_compares_keys (comp c : Key → Key → bool) m
    (x y : @value Key T) (x2 y2 : T) :
  value_compare_call (value_comp comp m) x y = key_comp comp m (fst x) (fst y)
  ∧ value_compare_call (value_compare_ctor c) x y = c (fst x) (fst y)
  ∧ value_compare_call (value_comp comp m) (fst x, x2) (fst y, y2)
    = value_compare_call (value_comp comp m) x y.
Proof. done. Qed.

(** A node without a right child: the first iteration of the loop of
    [node::operator+] takes [next->right()], which is null, and asks it
    for [left()]. *)
Lemma node_plus_loop_no_right h a nd rhs fuel :
  h !! a = Some nd → right nd = None →
  node_plus_loop (S fuel) (Some a) rhs h = Err NullDeref.
Proof.
  intros Hnd Hr. simpl. unfold bind, read. rewrite Hnd, Hr. done.
Qed.

(** C3, on the code: from a node whose right child is absent the loop of
    [node::operator+] follows the absent reference in its first iteration,
    for every index. *)
Theorem node_plus_follows_null h a nd rhs fuel :
  h !! a = Some nd → right nd = None →
  eval (node_plus (S fuel) a rhs) h = Err NullDeref.
Proof.
  intros Hnd Hr. unfold eval, node_plus.
  by rewrite (node_plus_loop_no_right h a nd).
Qed.

End Header.

(** The witness of C3 is the one-node tree, which satisfies both
    invariants, at index 0. *)
Lemma node_plus_follows_null_witness :
  is_tree single_heap (Some 1%positive) single_shape
  ∧ size_inv single_shape ∧ bst_inv Z.ltb single_shape
  ∧ 0 < s_size single_shape
  ∧ eval (node_plus 1 1%positive 0) single_heap = Err NullDeref.
Proof.
  split_and!.
  - exists 1%positive, None, None. done.
  - done.
  - done.
  - done.
  - apply (node_plus_follows_null single_heap 1%positive
             (int_node 5 50 1 None None) 0 0); reflexivity.
Defined.

(** C2, on the code: on the one-node tree, which satisfies both invariants,
    index 0 is in range and names the root, yet [node::operator+] returns no
    node: it faults on a null pointer whatever the number of iterations
    allowed.  The descent of the design returns the root. *)
Theorem node_plus_single_node :
  is_tree single_heap (Some 1%positive) single_shape
  ∧ size_inv single_shape ∧ bst_inv Z.ltb single_shape
  ∧ 0 < s_size single_shape
  ∧ eval (inorder_nodes 2 (Some 1%positive)) single_heap = Ok [1%positive]
  ∧ eval (rank_select 2 (Some 1%positive) 0) single_heap = Ok (Some 1%positive)
  ∧ ∀ fuel, eval (node_plus (S fuel) 1%positive 0) single_heap = Err NullDeref.
Proof.
  split_and!; try done.
  exists 1%positive, None, None. done.
Qed.

(** On a four-node tree the loop does return for index 1, but the root
    (rank 0) instead of the node of rank 1. *)
Lemma node_plus_wrong_node :
  is_tree quad_heap (Some 1%positive) quad_shape
  ∧ size_inv quad_shape ∧ bst_inv Z.ltb quad_shape
  ∧ eval (inorder_nodes 4 (Some 1%positive)) quad_heap
    = Ok [1; 3; 2; 4]%positive
  ∧ eval (rank_select 4 (Some 1%positive) 1) quad_heap = Ok (Some 3%positive)
  ∧ ∀ fuel, eval (node_plus (S fuel) 1%positive 1) quad_heap = Ok (Some 1%positive).
Proof.
  split_and!; try done.
  exists 1%positive, None, (Some 2%positive). split_and!; try done.
  exists 2%positive, (Some 3%positive), (Some 4%positive). split_and!; try done.
  - exists 3%positive, None, None. done.
  - exists 4%positive, None, None. done.
Qed.

(** C8, on the code: a cursor at rank 0 of the two-node tree, which
    satisfies both invariants.  The element of rank 0 is (1, 10) in the left
    child.  The built-in subscript of [operator*] yields the root node
    (2, 20) and [operator->] the root; read as the rank descent of
    [node::operator+] the dereference faults on a null pointer.  The same
    holds for [const_iterator]. *)
Theorem iterator_deref_pair :
  let it := iterator_ctor (Some 1%positive) 0 in
  let cit := const_iterator_ctor (Some 1%positive) 0 in
  is_tree pair_heap (Some 1%positive) pair_shape
  ∧ size_inv pair_shape ∧ bst_inv Z.ltb pair_shape
  ∧ it_index it < s_size pair_shape
  ∧ eval (inorder 3 (Some 1%positive)) pair_heap = Ok [(1, 10); (2, 20)]%Z
  ∧ eval (inorder_nodes 3 (Some 1%positive)) pair_heap = Ok [2; 1]%positive
  ∧ eval (rank_select 3 (Some 1%positive) 0) pair_heap = Ok (Some 2%positive)
  ∧ eval (iterator_deref it) pair_heap = Ok (int_node 2 20 2 (Some 2%positive) None)
  ∧ eval (iterator_arrow it) pair_heap = Ok (Some 1%positive)
  ∧ eval (const_iterator_deref cit) pair_heap
    = Ok (int_node 2 20 2 (Some 2%positive) None)
  ∧ eval (const_iterator_arrow cit) pair_heap = Ok (Some 1%positive)
  ∧ ∀ fuel,
      eval (iterator_deref_by_rank (S fuel) it) pair_heap = Err NullDeref
      ∧ eval (const_iterator_deref_by_rank (S fuel) cit) pair_heap = Err NullDeref.
Proof.
  split_and!; try done.
  exists 1%positive, (Some 2%positive), None. split_and!; try done.
  exists 2%positive, None, None. done.
Qed.

(** C7, as stated, fails: two cursors at rank 0 of different roots compare
    equal. *)
Lemma iterator_eq_ignores_root :
  ¬ (iterator_eq cursor_a cursor_b = true
     ↔ it_root cursor_a = it_root cursor_b
       ∧ it_index cursor_a = it_index cursor_b).
Proof. intros [H _]. by destruct (H eq_refl) as [? _]. Qed.

(** * The engine of the design refines its functions on shapes *)

Section Refinement.
Context {Key T : Type}.
Variable comp : Key → Key → bool.
Variable balance_c : N.
Variable prefer_single : N → N → bool.

Implicit Types (h : gmap addr (@node Key T)) (v : @value Key T).
Implicit Types (s l r : @shape Key T) (p : ptr) (a : addr).

Local Abbreviation s_balance' := (s_balance balance_c prefer_single).
Local Abbreviation balance_repair' := (balance_repair balance_c prefer_single).

Lemma returns_ret {A} (x : A) h (Q : A → _ → Prop) :
  Q x h → returns (ret x) h Q.
Proof. intros HQ. by exists x, h. Qed.

Lemma returns_bind {A B} (m : M node A) (k : A → M node B) h
    (Q : A → _ → Prop) (R : B → _ → Prop) :
  returns m h Q →
  (∀ x h', h ⊆ h' → Q x h' → returns (k x) h' R) →
  returns (bind m k) h R.
Proof.
  intros (x & h' & Hm & Hsub & HQ) Hk.
  destruct (Hk x h' Hsub HQ) as (y & h'' & Hkx & Hsub' & HR).
  exists y, h''. unfold bind. rewrite Hm. split_and!; [done| |done].
  by transitivity h'.
Qed.

Lemma returns_mono {A} (m : M node A) h (Q Q' : A → _ → Prop) :
  returns m h Q → (∀ x h', h ⊆ h' → Q x h' → Q' x h') → returns m h Q'.
Proof.
  intros (x & h' & Hm & Hsub & HQ) HQ'. exists x, h'. eauto.
Qed.

Lemma returns_read h a nd :
  h !! a = Some nd → returns (read a) h (λ x h', x = nd ∧ h' = h).
Proof. intros Ha. exists nd, h. unfold read. by rewrite Ha. Qed.

Lemma is_tree_mono h h' p s : h ⊆ h' → is_tree h p s → is_tree h' p s.
Proof.
  intros Hsub. revert p. induction s as [|l IHl v n r IHr]; intros p; [done|].
  simpl. intros (a & pl & pr & -> & Ha & Hl & Hr).
  exists a, pl, pr. split_and!; [done| |by apply IHl|by apply IHr].
  by eapply lookup_weaken.
Qed.

(** A reference denotes at most one tree. *)
Lemma is_tree_inj h p s s' : is_tree h p s → is_tree h p s' → s = s'.
Proof.
  revert p s'. induction s as [|l IHl v n r IHr]; intros p [|l' v' n' r']; simpl.
  - done.
  - intros -> (? & ? & ? & ? & _). done.
  - intros (? & ? & ? & -> & _) ?. done.
  - intros (a & pl & pr & -> & Ha & Hl & Hr) (a' & pl' & pr' & [= <-] & Ha' & Hl' & Hr').
    rewrite Ha in Ha'. injection Ha' as <- <- <- <-.
    f_equal; eauto.
Qed.

Lemma is_null_tree h p s : is_tree h p s → is_null p = s_is_nil s.
Proof. destruct s; simpl; [by intros ->|]. by intros (? & ? & ? & -> & _). Qed.

Lemma subtree_size_spec h p s :
  is_tree h p s → returns (subtree_size p) h (λ n h', n = s_size s ∧ h' = h).
Proof.
  destruct s as [|l v n r]; simpl.
  - intros ->. by apply returns_ret.
  - intros (a & pl & pr & -> & Ha & _). simpl.
    eapply returns_bind; [by apply returns_read|].
    intros nd h' _ [-> ->]. by apply returns_ret.
Qed.

Lemma make_node_spec h v pl pr l r :
  is_tree h pl l → is_tree h pr r →
  returns (make_node v pl pr) h (λ p h', is_tree h' p (s_make v l r)).
Proof.
  intros Hl Hr. unfold make_node.
  eapply returns_bind; [by apply subtree_size_spec|]. intros nl ? _ [-> ->].
  eapply returns_bind; [by apply subtree_size_spec|]. intros nr ? _ [-> ->].
  set (nd := {| _v := v; _n := 1 + s_size l + s_size r; _l := pl; _r := pr |}).
  pose proof (is_fresh (dom h)) as Hfresh.
  apply not_elem_of_dom in Hfresh.
  exists (Some (fresh (dom h))), (<[fresh (dom h) := nd]> h).
  split_and!; [done|by apply insert_subseteq|].
  simpl. exists (fresh (dom h)), pl, pr.
  split_and!; [done|by rewrite lookup_insert_eq| |];
    (eapply is_tree_mono; [by apply insert_subseteq|done]).
Qed.

Lemma deref_spec h p l v n r :
  is_tree h p (SBin l v n r) →
  ∃ pl pr, returns (deref p) h
             (λ nd h', nd = {| _v := v; _n := n; _l := pl; _r := pr |} ∧ h' = h)
           ∧ is_tree h pl l ∧ is_tree h pr r.
Proof.
  simpl. intros (a & pl & pr & -> & Ha & Hl & Hr).
  exists pl, pr. split_and!; [|done..]. by apply returns_read.
Qed.

Lemma rotate_left_spec h v pl pr l rl rv rn rr :
  is_tree h pl l → is_tree h pr (SBin rl rv rn rr) →
  returns (rotate_left v pl pr) h
    (λ p h', is_tree h' p (s_rotate_left v l (SBin rl rv rn rr))).
Proof.
  intros Hl Hr. destruct (deref_spec _ _ _ _ _ _ Hr) as (prl & prr & Hd & Hrl & Hrr).
  unfold rotate_left. eapply returns_bind; [exact Hd|].
  intros nd ? _ [-> ->]. cbn [_l _r _v].
  eapply returns_bind; [by apply make_node_spec|]. intros p1 h1 Hsub H1.
  apply make_node_spec; [done|]. by eapply is_tree_mono.
Qed.

Lemma rotate_right_spec h v pl pr ll lv ln lr r :
  is_tree h pl (SBin ll lv ln lr) → is_tree h pr r →
  returns (rotate_right v pl pr) h
    (λ p h', is_tree h' p (s_rotate_right v (SBin ll lv ln lr) r)).
Proof.
  intros Hl Hr. destruct (deref_spec _ _ _ _ _ _ Hl) as (pll & plr & Hd & Hll & Hlr).
  unfold rotate_right. eapply returns_bind; [exact Hd|].
  intros nd ? _ [-> ->]. cbn [_l _r _v].
  eapply returns_bind; [by apply make_node_spec|]. intros p1 h1 Hsub H1.
  apply make_node_spec; [|done]. by eapply is_tree_mono.
Qed.

Lemma rotate_left_double_spec h v pl pr l rll rlv rln rlr rv rn rr :
  is_tree h pl l → is_tree h pr (SBin (SBin rll rlv rln rlr) rv rn rr) →
  returns (rotate_left_double v pl pr) h
    (λ p h', is_tree h' p
               (s_rotate_left_double v l (SBin (SBin rll rlv rln rlr) rv rn rr))).
Proof.
  intros Hl Hr. destruct (deref_spec _ _ _ _ _ _ Hr) as (prl & prr & Hd & Hrl & Hrr).
  destruct (deref_spec _ _ _ _ _ _ Hrl) as (prll & prlr & Hd' & Hrll & Hrlr).
  unfold rotate_left_double. eapply returns_bind; [exact Hd|].
  intros nd ? _ [-> ->]. cbn [_l _r _v].
  eapply returns_bind; [exact Hd'|]. intros nd ? _ [-> ->]. cbn [_l _r _v].
  eapply returns_bind; [by apply make_node_spec|]. intros p1 h1 Hsub1 H1.
  eapply returns_bind.
  { apply (make_node_spec h1 rv prlr prr rlr rr); by eapply is_tree_mono. }
  intros p2 h2 Hsub2 H2.
  apply make_node_spec; [|done]. by eapply is_tree_mono.
Qed.

Lemma rotate_right_double_spec h v pl pr ll lv ln lrl lrv lrn lrr r :
  is_tree h pl (SBin ll lv ln (SBin lrl lrv lrn lrr)) → is_tree h pr r →
  returns (rotate_right_double v pl pr) h
    (λ p h', is_tree h' p
               (s_rotate_right_double v (SBin ll lv ln (SBin lrl lrv lrn lrr)) r)).
Proof.
  intros Hl Hr. destruct (deref_spec _ _ _ _ _ _ Hl) as (pll & plr & Hd & Hll & Hlr).
  destruct (deref_spec _ _ _ _ _ _ Hlr) as (plrl & plrr & Hd' & Hlrl & Hlrr).
  unfold rotate_right_double. eapply returns_bind; [exact Hd|].
  intros nd ? _ [-> ->]. cbn [_l _r _v].
  eapply returns_bind; [exact Hd'|]. intros nd ? _ [-> ->]. cbn [_l _r _v].
  eapply returns_bind; [by apply make_node_spec|]. intros p1 h1 Hsub1 H1.
  eapply returns_bind.
  { apply (make_node_spec h1 v plrr pr lrr r); by eapply is_tree_mono. }
  intros p2 h2 Hsub2 H2.
  apply make_node_spec; [|done]. by eapply is_tree_mono.
Qed.

Lemma balance_repair_spec h v pl pr l r :
  is_tree h pl l → is_tree h pr r →
  returns (balance_repair' v pl pr) h (λ p h', is_tree h' p (s_balance' v l r)).
Proof.
  intros Hl Hr. unfold balance_repair, s_balance.
  eapply returns_bind; [by apply subtree_size_spec|]. intros nl ? _ [-> ->].
  eapply returns_bind; [by apply subtree_size_spec|]. intros nr ? _ [-> ->].
  destruct (balance_c * s_size l + 1 <? s_size r) eqn:Hright.
  - destruct r as [|rl rv rn rr].
    { apply N.ltb_lt in Hright. simpl in Hright. lia. }
    destruct (deref_spec _ _ _ _ _ _ Hr) as (prl & prr & Hd & Hrl & Hrr).
    eapply returns_bind; [exact Hd|]. intros nd ? _ [-> ->]. cbn [_l _r _v].
    eapply returns_bind; [by apply subtree_size_spec|]. intros ? ? _ [-> ->].
    eapply returns_bind; [by apply subtree_size_spec|]. intros ? ? _ [-> ->].
    rewrite (is_null_tree _ _ _ Hrl).
    destruct (s_is_nil rl || prefer_single (s_size rl) (s_size rr)) eqn:Hsingle.
    + by apply rotate_left_spec.
    + destruct rl as [|rll rlv rln rlr]; [done|].
      by apply rotate_left_double_spec.
  - destruct (balance_c * s_size r + 1 <? s_size l) eqn:Hleft.
    + destruct l as [|ll lv ln lr].
      { apply N.ltb_lt in Hleft. simpl in Hleft. lia. }
      destruct (deref_spec _ _ _ _ _ _ Hl) as (pll & plr & Hd & Hll & Hlr).
      eapply returns_bind; [exact Hd|]. intros nd ? _ [-> ->]. cbn [_l _r _v].
      eapply returns_bind; [by apply subtree_size_spec|]. intros ? ? _ [-> ->].
      eapply returns_bind; [by apply subtree_size_spec|]. intros ? ? _ [-> ->].
      rewrite (is_null_tree _ _ _ Hlr).
      destruct (s_is_nil lr || prefer_single (s_size lr) (s_size ll)) eqn:Hsingle.
      * by apply rotate_right_spec.
      * destruct lr as [|lrl lrv lrn lrr]; [done|].
        by apply rotate_right_double_spec.
    + by apply make_node_spec.
Qed.

Lemma tree_find_spec fuel h p s k :
  is_tree h p s → (s_height s < fuel)%nat →
  returns (tree_find comp fuel p k) h (λ o h', o = s_find comp s k ∧ h' = h).
Proof.
  revert p s. induction fuel as [|fuel IH]; intros p s Hs Hfuel; [lia|].
  destruct s as [|l v n r]; simpl in Hs.
  { subst p. by apply returns_ret. }
  destruct Hs as (a & pl & pr & -> & Ha & Hl & Hr).
  simpl in Hfuel. cbn [tree_find s_find].
  eapply returns_bind; [by apply returns_read|]. intros nd ? _ [-> ->].
  unfold key_of. cbn [_l _r _v].
  destruct (comp k (fst v)); [apply IH; [done|lia]|].
  destruct (comp (fst v) k); [apply IH; [done|lia]|].
  by apply returns_ret.
Qed.

Lemma inorder_spec fuel h p s :
  is_tree h p s → (s_height s < fuel)%nat →
  returns (inorder fuel p) h (λ es h', es = s_elements s ∧ h' = h).
Proof.
  revert p s. induction fuel as [|fuel IH]; intros p s Hs Hfuel; [lia|].
  destruct s as [|l v n r]; simpl in Hs.
  { subst p. by apply returns_ret. }
  destruct Hs as (a & pl & pr & -> & Ha & Hl & Hr).
  simpl in Hfuel. cbn [inorder s_elements].
  eapply returns_bind; [by apply returns_read|]. intros nd ? _ [-> ->].
  cbn [_l _r _v].
  eapply returns_bind; [apply (IH pl l); [done|lia]|]. intros ? ? _ [-> ->].
  eapply returns_bind; [apply (IH pr r); [done|lia]|]. intros ? ? _ [-> ->].
  by apply returns_ret.
Qed.

Lemma tree_insert_spec fuel h p s k x :
  is_tree h p s → (s_height s < fuel)%nat →
  returns (tree_insert comp balance_c prefer_single fuel p k x) h
    (λ pb h', is_tree h' pb.1 (s_insert comp balance_c prefer_single s k x).1
              ∧ pb.2 = (s_insert comp balance_c prefer_single s k x).2).
Proof.
  revert h p s. induction fuel as [|fuel IH]; intros h p s Hs Hfuel; [lia|].
  destruct s as [|l v n r].
  { simpl in Hs. subst p. cbn [tree_insert s_insert].
    eapply returns_bind; [by apply (make_node_spec h (k, x) None None SNil SNil)|].
    intros p' h' _ Hp'. by apply returns_ret. }
  pose proof Hs as (a & pl & pr & -> & Ha & Hl & Hr).
  simpl in Hfuel. cbn [tree_insert s_insert].
  eapply returns_bind; [by apply returns_read|]. intros nd ? _ [-> ->].
  unfold key_of. cbn [_l _r _v].
  destruct (comp k (fst v)).
  { eapply returns_bind; [apply (IH h pl l); [done|lia]|].
    intros [l' added] h' Hsub [Hl' Hadded].
    destruct (s_insert comp balance_c prefer_single l k x) as [sl b].
    simpl in Hl', Hadded. subst b. destruct added.
    - eapply returns_bind.
      { apply (balance_repair_spec h' v l' pr sl r);
          [done|by eapply is_tree_mono]. }
      intros p' h'' _ Hp'. by apply returns_ret.
    - apply returns_ret. split; [|done]. by eapply is_tree_mono. }
  destruct (comp (fst v) k).
  { eapply returns_bind; [apply (IH h pr r); [done|lia]|].
    intros [r' added] h' Hsub [Hr' Hadded].
    destruct (s_insert comp balance_c prefer_single r k x) as [sr b].
    simpl in Hr', Hadded. subst b. destruct added.
    - eapply returns_bind.
      { apply (balance_repair_spec h' v pl r' l sr);
          [by eapply is_tree_mono|done]. }
      intros p' h'' _ Hp'. by apply returns_ret.
    - apply returns_ret. split; [|done]. by eapply is_tree_mono. }
  by apply returns_ret.
Qed.

Lemma tree_min_spec fuel h a l v n r :
  is_tree h (Some a) (SBin l v n r) → (s_height (SBin l v n r) ≤ fuel)%nat →
  returns (tree_min fuel a) h (λ m h', m = s_min l v ∧ h' = h).
Proof.
  revert a l v n r. induction fuel as [|fuel IH]; intros a l v n r Hs Hfuel.
  { simpl in Hfuel. lia. }
  destruct Hs as (? & pl & pr & [= <-] & Ha & Hl & Hr).
  simpl in Hfuel. cbn [tree_min].
  eapply returns_bind; [by apply returns_read|]. intros nd ? _ [-> ->].
  cbn [_l _r _v].
  destruct l as [|ll lv ln lr].
  - simpl in Hl. subst pl. by apply returns_ret.
  - pose proof Hl as (la & ? & ? & -> & _). cbn [s_min].
    apply (IH la ll lv ln lr); [done|]. lia.
Qed.

Lemma tree_erase_spec fuel h p s k :
  is_tree h p s → (s_height s < fuel)%nat →
  returns (tree_erase comp balance_c prefer_single fuel p k) h
    (λ pb h', is_tree h' pb.1 (s_erase comp balance_c prefer_single s k).1
              ∧ pb.2 = (s_erase comp balance_c prefer_single s k).2).
Proof.
  revert h p s k. induction fuel as [|fuel IH]; intros h p s k Hs Hfuel; [lia|].
  destruct s as [|l v n r].
  { simpl in Hs. subst p. by apply returns_ret. }
  pose proof Hs as (a & pl & pr & -> & Ha & Hl & Hr).
  simpl in Hfuel. cbn [tree_erase s_erase].
  eapply returns_bind; [by apply returns_read|]. intros nd ? _ [-> ->].
  unfold key_of. cbn [_l _r _v].
  destruct (comp k (fst v)).
  { eapply returns_bind; [apply (IH h pl l); [done|lia]|].
    intros [l' removed] h' Hsub [Hl' Hremoved].
    destruct (s_erase comp balance_c prefer_single l k) as [sl b].
    simpl in Hl', Hremoved. subst b. destruct removed.
    - eapply returns_bind.
      { apply (balance_repair_spec h' v l' pr sl r);
          [done|by eapply is_tree_mono]. }
      intros p' h'' _ Hp'. by apply returns_ret.
    - apply returns_ret. split; [|done]. by eapply is_tree_mono. }
  destruct (comp (fst v) k).
  { eapply returns_bind; [apply (IH h pr r); [done|lia]|].
    intros [r' removed] h' Hsub [Hr' Hremoved].
    destruct (s_erase comp balance_c prefer_single r k) as [sr b].
    simpl in Hr', Hremoved. subst b. destruct removed.
    - eapply returns_bind.
      { apply (balance_repair_spec h' v pl r' l sr);
          [by eapply is_tree_mono|done]. }
      intros p' h'' _ Hp'. by apply returns_ret.
    - apply returns_ret. split; [|done]. by eapply is_tree_mono. }
  destruct l as [|ll lv ln lr].
  { simpl in Hl. subst pl. by apply returns_ret. }
  pose proof Hl as (la & ? & ? & -> & _).
  destruct r as [|rl rv rn rr].
  { simpl in Hr. subst pr. by apply returns_ret. }
  pose proof Hr as (ra & ? & ? & -> & _).
  eapply returns_bind.
  { apply (tree_min_spec fuel h ra rl rv rn rr); [done|]. simpl. simpl in Hfuel. lia. }
  intros m ? _ [-> ->].
  eapply returns_bind.
  { apply (IH h (Some ra) (SBin rl rv rn rr) (fst (s_min rl rv))); [done|].
    simpl. simpl in Hfuel. lia. }
  intros [r' removed] h' Hsub [Hr' _].
  destruct (s_erase comp balance_c prefer_single (SBin rl rv rn rr)
              (fst (s_min rl rv))) as [sr b] eqn:Herase.
  simpl in Hr'.
  eapply returns_bind.
  { apply (balance_repair_spec h' (s_min rl rv)
             (Some la) r' (SBin ll lv ln lr) sr); [by eapply is_tree_mono|done]. }
  intros p' h'' _ Hp'. by apply returns_ret.
Qed.

End Refinement.

(** * Counts, heights and the size invariant *)

Section Sizes.
Context {Key T : Type}.
Variable comp : Key → Key → bool.
Variable balance_c : N.
Variable prefer_single : N → N → bool.

Implicit Types (h : gmap addr (@node Key T)) (v : @value Key T).
Implicit Types (s l r : @shape Key T) (p : ptr) (m : map).

Lemma size_inv_length s :
  size_inv s → s_size s = N.of_nat (length (s_elements s)).
Proof.
  induction s as [|l IHl v n r IHr]; simpl; [done|].
  intros (-> & Hl & Hr). rewrite IHl, IHr by done.
  rewrite length_app. simpl. lia.
Qed.

Lemma s_height_length s : (s_height s ≤ length (s_elements s))%nat.
Proof.
  induction s as [|l IHl v n r IHr]; simpl; [done|].
  rewrite length_app. simpl. lia.
Qed.

Lemma fuel_of_enough s : size_inv s → (s_height s < fuel_of (s_size s))%nat.
Proof.
  intros Hs. unfold fuel_of. rewrite (size_inv_length s Hs), Nat2N.id.
  pose proof (s_height_length s). lia.
Qed.

Lemma size_inv_make v l r :
  size_inv l → size_inv r → size_inv (s_make v l r).
Proof. by simpl. Qed.

Lemma size_inv_balance v l r :
  size_inv l → size_inv r →
  size_inv (s_balance balance_c prefer_single v l r)
  ∧ s_size (s_balance balance_c prefer_single v l r) = 1 + s_size l + s_size r.
Proof.
  intros Hl Hr. unfold s_balance.
  destruct (balance_c * s_size l + 1 <? s_size r).
  - destruct r as [|rl rv rn rr]; [by simpl|].
    destruct Hr as (-> & Hrl & Hrr).
    destruct (s_is_nil rl || prefer_single (s_size rl) (s_size rr)).
    + simpl. split_and!; try done. lia.
    + destruct rl as [|rll rlv rln rlr]; [by simpl|].
      destruct Hrl as (-> & Hrll & Hrlr).
      simpl. split_and!; try done. lia.
  - destruct (balance_c * s_size r + 1 <? s_size l); [|by simpl].
    destruct l as [|ll lv ln lr]; [by simpl|].
    destruct Hl as (-> & Hll & Hlr).
    destruct (s_is_nil lr || prefer_single (s_size lr) (s_size ll)).
    + simpl. split_and!; try done. lia.
    + destruct lr as [|lrl lrv lrn lrr]; [by simpl|].
      destruct Hlr as (-> & Hlrl & Hlrr).
      simpl. split_and!; try done. lia.
Qed.

Lemma size_inv_insert s k x :
  size_inv s →
  size_inv (s_insert comp balance_c prefer_single s k x).1
  ∧ s_size (s_insert comp balance_c prefer_single s k x).1
    = s_size s + (if (s_insert comp balance_c prefer_single s k x).2 then 1 else 0).
Proof.
  induction s as [|l IHl v n r IHr]; [by simpl|].
  intros Hs. pose proof Hs as (Hn & Hl & Hr). cbn [s_insert].
  destruct (comp k (fst v)).
  { destruct (s_insert comp balance_c prefer_single l k x) as [l' [|]];
      simpl in IHl; [|simpl; split; [done|lia]].
    destruct (IHl Hl) as [Hl' Hsize].
    destruct (size_inv_balance v l' r Hl' Hr) as [Hb Hbs].
    simpl. split; [done|]. rewrite Hbs, Hsize, Hn. lia. }
  destruct (comp (fst v) k); [|simpl; split; [done|lia]].
  destruct (s_insert comp balance_c prefer_single r k x) as [r' [|]];
    simpl in IHr; [|simpl; split; [done|lia]].
  destruct (IHr Hr) as [Hr' Hsize].
  destruct (size_inv_balance v l r' Hl Hr') as [Hb Hbs].
  simpl. split; [done|]. rewrite Hbs, Hsize, Hn. lia.
Qed.

Lemma size_inv_erase s k :
  size_inv s → size_inv (s_erase comp balance_c prefer_single s k).1.
Proof.
  revert k. induction s as [|l IHl v n r IHr]; intros k; [by simpl|].
  intros Hs. pose proof Hs as (Hn & Hl & Hr). cbn [s_erase].
  destruct (comp k (fst v)).
  { specialize (IHl k Hl).
    destruct (s_erase comp balance_c prefer_single l k) as [l' [|]]; [|done].
    by apply size_inv_balance. }
  destruct (comp (fst v) k).
  { specialize (IHr k Hr).
    destruct (s_erase comp balance_c prefer_single r k) as [r' [|]]; [|done].
    by apply size_inv_balance. }
  destruct l as [|ll lv ln lr]; [done|].
  destruct r as [|rl rv rn rr]; [done|].
  specialize (IHr (fst (s_min rl rv)) Hr).
  destruct (s_erase comp balance_c prefer_single (SBin rl rv rn rr)
              (fst (s_min rl rv))) as [r' b].
  by apply size_inv_balance.
Qed.

(** The handle operations on a well-formed handle. *)

Lemma size_spec h m s :
  is_tree h (map_root m) s →
  returns (size m) h (λ n h', n = s_size s ∧ h' = h).
Proof. apply subtree_size_spec. Qed.

Lemma map_find_spec h m s k :
  is_tree h (map_root m) s → size_inv s →
  returns (map_find comp m k) h (λ o h', o = s_find comp s k ∧ h' = h).
Proof.
  intros Hs Hinv. unfold map_find.
  eapply returns_bind; [by apply size_spec|]. intros n ? _ [-> ->].
  apply tree_find_spec; [done|]. by apply fuel_of_enough.
Qed.

Lemma map_to_list_spec h m s :
  is_tree h (map_root m) s → size_inv s →
  returns (map_to_list m) h (λ es h', es = s_elements s ∧ h' = h).
Proof.
  intros Hs Hinv. unfold map_to_list.
  eapply returns_bind; [by apply size_spec|]. intros n ? _ [-> ->].
  apply inorder_spec; [done|]. by apply fuel_of_enough.
Qed.

Lemma map_insert_spec h m s k x :
  is_tree h (map_root m) s → size_inv s →
  returns (map_insert comp balance_c prefer_single m k x) h
    (λ mb h', is_tree h' (map_root mb.1)
                (s_insert comp balance_c prefer_single s k x).1
              ∧ mb.2 = (s_insert comp balance_c prefer_single s k x).2).
Proof.
  intros Hs Hinv. unfold map_insert.
  eapply returns_bind; [by apply size_spec|]. intros n ? _ [-> ->].
  eapply returns_bind.
  { apply tree_insert_spec; [done|]. by apply fuel_of_enough. }
  intros [p added] h' _ [Hp Hadded]. by apply returns_ret.
Qed.

Lemma map_erase_spec h m s k :
  is_tree h (map_root m) s → size_inv s →
  returns (map_erase comp balance_c prefer_single m k) h
    (λ mb h', is_tree h' (map_root mb.1)
                (s_erase comp balance_c prefer_single s k).1
              ∧ mb.2 = (s_erase comp balance_c prefer_single s k).2).
Proof.
  intros Hs Hinv. unfold map_erase.
  eapply returns_bind; [by apply size_spec|]. intros n ? _ [-> ->].
  eapply returns_bind.
  { apply tree_erase_spec; [done|]. by apply fuel_of_enough. }
  intros [p removed] h' _ [Hp Hremoved]. by apply returns_ret.
Qed.

Lemma apply_operation_spec h m s o :
  is_tree h (map_root m) s → size_inv s →
  returns (apply_operation comp balance_c prefer_single m o) h
    (λ m' h', ∃ s', is_tree h' (map_root m') s' ∧ size_inv s').
Proof.
  intros Hs Hinv. destruct o as [k x|k|]; simpl.
  - eapply returns_bind; [by apply map_insert_spec|].
    intros [m' b] h' _ [Hm' _]. apply returns_ret.
    eexists. split; [exact Hm'|]. by apply size_inv_insert.
  - eapply returns_bind; [by apply map_erase_spec|].
    intros [m' b] h' _ [Hm' _]. apply returns_ret.
    eexists. split; [exact Hm'|]. by apply size_inv_erase.
  - apply returns_ret. by exists SNil.
Qed.

Lemma apply_operations_spec os h m s :
  is_tree h (map_root m) s → size_inv s →
  returns (apply_operations comp balance_c prefer_single m os) h
    (λ m' h', ∃ s', is_tree h' (map_root m') s' ∧ size_inv s').
Proof.
  revert h m s. induction os as [|o os IH]; intros h m s Hs Hinv; simpl.
  - apply returns_ret. by exists s.
  - eapply returns_bind; [by eapply apply_operation_spec|].
    intros m' h' _ (s' & Hs' & Hinv'). by eapply IH.
Qed.

Lemma eval_returns {A} (mx : M node A) h (x : A) :
  returns mx h (λ y _, y = x) → eval mx h = Ok x.
Proof. intros (y & h' & Hm & _ & ->). unfold eval. by rewrite Hm. Qed.

Lemma eval_map_to_list h m s :
  is_tree h (map_root m) s → size_inv s →
  eval (map_to_list m) h = Ok (s_elements s).
Proof.
  intros Hs Hinv. apply eval_returns.
  eapply returns_mono; [by apply map_to_list_spec|]. by intros ? ? _ [-> _].
Qed.

(** C1: let [v1] be a handle on a tree with the size invariant.  Any
    operation on [v1] (insert, erase or clear) returns a handle [v2], and
    any further operations run from [v2] return as well; in the store
    before, in between and after, [v1] denotes the same tree and its
    in-order sequence of pairs is the same. *)
Theorem old_version_unchanged h (v1 : map) s
    (first : operation) (further : list operation) :
  is_tree h (map_root v1) s → size_inv s →
  ∃ (v2 : map) h' (v3 : map) h'',
    apply_operation comp balance_c prefer_single v1 first h = Ok (v2, h')
    ∧ apply_operations comp balance_c prefer_single v2 further h' = Ok (v3, h'')
    ∧ eval (map_to_list v1) h = Ok (s_elements s)
    ∧ eval (map_to_list v1) h' = Ok (s_elements s)
    ∧ eval (map_to_list v1) h'' = Ok (s_elements s)
    ∧ is_tree h' (map_root v1) s ∧ is_tree h'' (map_root v1) s.
Proof.
  intros Hs Hinv.
  destruct (apply_operation_spec h v1 s first Hs Hinv)
    as (v2 & h' & Hfirst & Hsub & s2 & Hs2 & Hinv2).
  destruct (apply_operations_spec further h' v2 s2 Hs2 Hinv2)
    as (v3 & h'' & Hfurther & Hsub' & _).
  assert (is_tree h' (map_root v1) s) as Hs' by by eapply is_tree_mono.
  assert (is_tree h'' (map_root v1) s) as Hs'' by by eapply is_tree_mono.
  exists v2, h', v3, h''. split_and!; try done; by apply eval_map_to_list.
Qed.

End Sizes.

(** * The rank descent of the design *)

Section Rank.
Context {Key T : Type}.

Implicit Types (h : gmap addr (@node Key T)) (v : @value Key T).
Implicit Types (s l r : @shape Key T) (p : ptr) (ns : list addr) (i : N).

Lemma tree_nodes_is_tree h p s ns : tree_nodes h p s ns → is_tree h p s.
Proof.
  revert p ns. induction s as [|l IHl v n r IHr]; intros p ns; simpl.
  - by intros [-> _].
  - intros (a & pl & pr & ls & rs & -> & Ha & Hl & Hr & _).
    exists a, pl, pr. split_and!; eauto.
Qed.

Lemma tree_nodes_length h p s ns :
  tree_nodes h p s ns → length ns = length (s_elements s).
Proof.
  revert p ns. induction s as [|l IHl v n r IHr]; intros p ns; simpl.
  - by intros [_ ->].
  - intros (a & pl & pr & ls & rs & _ & _ & Hl & Hr & ->).
    rewrite !length_app. simpl. by rewrite (IHl _ _ Hl), (IHr _ _ Hr).
Qed.

Lemma is_tree_nodes h p s : is_tree h p s → ∃ ns, tree_nodes h p s ns.
Proof.
  revert p. induction s as [|l IHl v n r IHr]; intros p; simpl.
  - intros ->. by exists [].
  - intros (a & pl & pr & -> & Ha & Hl & Hr).
    destruct (IHl _ Hl) as [ls Hls]. destruct (IHr _ Hr) as [rs Hrs].
    exists (ls ++ a :: rs), a, pl, pr, ls, rs. done.
Qed.

Lemma inorder_nodes_spec fuel h p s ns :
  tree_nodes h p s ns → (s_height s < fuel)%nat →
  returns (inorder_nodes fuel p) h (λ x h', x = ns ∧ h' = h).
Proof.
  revert p s ns. induction fuel as [|fuel IH]; intros p s ns Hs Hfuel; [lia|].
  destruct s as [|l v n r]; simpl in Hs.
  { destruct Hs as [-> ->]. by apply returns_ret. }
  destruct Hs as (a & pl & pr & ls & rs & -> & Ha & Hl & Hr & ->).
  simpl in Hfuel. cbn [inorder_nodes].
  eapply returns_bind; [by apply returns_read|]. intros nd ? _ [-> ->].
  cbn [_l _r _v].
  eapply returns_bind; [apply (IH pl l ls); [done|lia]|]. intros ? ? _ [-> ->].
  eapply returns_bind; [apply (IH pr r rs); [done|lia]|]. intros ? ? _ [-> ->].
  by apply returns_ret.
Qed.

Lemma rank_select_spec fuel h p s ns i :
  tree_nodes h p s ns → size_inv s → (s_height s < fuel)%nat → i < s_size s →
  returns (rank_select fuel p i) h
    (λ q h', q = ns !! N.to_nat i ∧ is_Some q ∧ h' = h).
Proof.
  revert p s ns i.
  induction fuel as [|fuel IH]; intros p s ns i Hs Hinv Hfuel Hi; [lia|].
  destruct s as [|l v n r]; [simpl in Hi; lia|].
  destruct Hs as (a & pl & pr & ls & rs & -> & Ha & Hl & Hr & ->).
  destruct Hinv as (-> & Hinvl & Hinvr).
  simpl in Hfuel, Hi. cbn [rank_select].
  eapply returns_bind; [by apply returns_read|]. intros nd ? _ [-> ->].
  cbn [_l _r _v].
  eapply returns_bind.
  { apply subtree_size_spec. by eapply tree_nodes_is_tree. }
  intros ? ? _ [-> ->].
  pose proof (size_inv_length l Hinvl) as Hlen.
  rewrite <- (tree_nodes_length _ _ _ _ Hl) in Hlen.
  destruct (i <? s_size l) eqn:Hlt.
  { apply N.ltb_lt in Hlt.
    eapply returns_mono; [apply (IH pl l ls i); [done|done|lia|done]|].
    intros q ? _ (-> & Hq & ->). split_and!; [|done..].
    rewrite lookup_app_l; [done|lia]. }
  apply N.ltb_ge in Hlt.
  destruct (i =? s_size l) eqn:Heq.
  { apply N.eqb_eq in Heq. apply returns_ret.
    assert (N.to_nat i = length ls) as -> by lia.
    rewrite list_lookup_middle by done. eauto. }
  apply N.eqb_neq in Heq.
  eapply returns_mono;
    [apply (IH pr r rs (i - s_size l - 1)); [done|done|lia|lia]|].
  intros q ? _ (-> & Hq & ->). split_and!; [|done..].
  rewrite lookup_app_r by lia.
  replace (N.to_nat i - length ls)%nat
    with (S (N.to_nat (i - s_size l - 1))) by lia.
  done.
Qed.

(** The rank round trip of the design: under the size invariant and for an
    index in range, [rank_select] returns the node at that position of the
    in-order traversal. *)
Lemma rank_select_round_trip fuel h p s i :
  is_tree h p s → size_inv s → (s_height s < fuel)%nat → i < s_size s →
  ∃ ns a, eval (inorder_nodes fuel p) h = Ok ns
          ∧ ns !! N.to_nat i = Some a
          ∧ eval (rank_select fuel p i) h = Ok (Some a).
Proof.
  intros Hs Hinv Hfuel Hi.
  destruct (is_tree_nodes h p s Hs) as [ns Hns].
  destruct (rank_select_spec fuel h p s ns i Hns Hinv Hfuel Hi)
    as (q & ? & Hsel & _ & Hq & [a Ha] & _).
  exists ns, a. split_and!.
  - apply eval_returns.
    eapply returns_mono; [by apply (inorder_nodes_spec fuel h p s ns)|].
    by intros ? ? _ [-> _].
  - congruence.
  - unfold eval. rewrite Hsel. by rewrite Ha.
Qed.

End Rank.

(** * Lookup after insertion *)

Section Ordering.
Context {Key T : Type}.
Variable comp : Key → Key → bool.
Variable balance_c : N.
Variable prefer_single : N → N → bool.

(** [Compare] is a strict weak ordering. *)
Hypothesis comp_irrefl : ∀ a, comp a a = false.
Hypothesis comp_trans :
  ∀ a b c, comp a b = true → comp b c = true → comp a c = true.
Hypothesis comp_cotrans :
  ∀ a b c, comp a c = true → comp a b = true ∨ comp b c = true.

Implicit Types (h : gmap addr (@node Key T)) (v e : @value Key T).
Implicit Types (s l r : @shape Key T) (p : ptr) (m : map).
Implicit Types (es : list (@value Key T)) (k : Key) (x : T).

Local Abbreviation before v := (λ e, comp (fst e) (fst v) = true).
Local Abbreviation after v := (λ e, comp (fst v) (fst e) = true).

(** An entry before [v] is before every key that is not before [v]. *)
Lemma before_not_before e v k :
  comp (fst e) (fst v) = true → comp k (fst v) = false →
  comp k (fst e) = false ∧ comp (fst e) k = true.
Proof.
  intros Hev Hkv. split.
  - destruct (comp k (fst e)) eqn:Hke; [|done].
    by rewrite (comp_trans _ _ _ Hke Hev) in Hkv.
  - destruct (comp_cotrans _ k _ Hev) as [?|Hkv']; [done|congruence].
Qed.

Lemma l_find_app_lt es v es' k :
  comp k (fst v) = true → l_find comp (es ++ v :: es') k = l_find comp es k.
Proof.
  intros Hkv. induction es as [|e es IH]; simpl; [by rewrite Hkv|].
  by rewrite IH.
Qed.

Lemma l_find_app_ge es v es' k :
  Forall (before v) es → comp k (fst v) = false →
  l_find comp (es ++ v :: es') k = l_find comp (v :: es') k.
Proof.
  intros Hes Hkv. induction Hes as [|e es He _ IH]; [done|].
  destruct (before_not_before e v k He Hkv) as [Hke Hek].
  simpl in *. by rewrite Hke, Hek.
Qed.

Lemma l_insert_app_lt es v es' k x :
  comp k (fst v) = true →
  l_insert comp (es ++ v :: es') k x = l_insert comp es k x ++ v :: es'.
Proof.
  intros Hkv. induction es as [|e es IH]; simpl; [by rewrite Hkv|].
  rewrite IH. by repeat case_match.
Qed.

Lemma l_insert_app_ge es v es' k x :
  Forall (before v) es → comp k (fst v) = false →
  l_insert comp (es ++ v :: es') k x = es ++ l_insert comp (v :: es') k x.
Proof.
  intros Hes Hkv. induction Hes as [|e es He _ IH]; [done|].
  destruct (before_not_before e v k He Hkv) as [Hke Hek].
  simpl in *. by rewrite Hke, Hek, IH.
Qed.

Lemma l_find_insert es k x :
  l_find comp es k = None → l_find comp (l_insert comp es k x) k = Some x.
Proof.
  induction es as [|e es IH]; simpl.
  - intros _. by rewrite comp_irrefl.
  - destruct (comp k (fst e)) eqn:Hke.
    + intros _. simpl. by rewrite comp_irrefl.
    + destruct (comp (fst e) k) eqn:Hek; [|done].
      intros Hnone. simpl. rewrite Hke, Hek. by apply IH.
Qed.

Lemma l_insert_length es k x :
  length (l_insert comp es k x)
  = (length es + if l_find comp es k is None then 1 else 0)%nat.
Proof.
  induction es as [|e es IH]; simpl; [done|].
  destruct (comp k (fst e)); [simpl; lia|].
  destruct (comp (fst e) k); simpl; [|lia].
  rewrite IH. lia.
Qed.

Lemma Forall_l_insert (P : @value Key T → Prop) es k x :
  P (k, x) → Forall P es → Forall P (l_insert comp es k x).
Proof.
  intros Hk Hes. induction Hes as [|e es He Hes IH]; simpl.
  - by constructor.
  - repeat case_match; repeat constructor; done.
Qed.

Lemma l_sorted_app es v es' :
  l_sorted comp (es ++ v :: es')
  ↔ l_sorted comp es ∧ l_sorted comp es'
    ∧ Forall (before v) es ∧ Forall (after v) es'.
Proof.
  induction es as [|e es IH]; simpl.
  - rewrite Forall_nil. tauto.
  - rewrite IH, Forall_app, !Forall_cons. split.
    + tauto.
    + intros ((He & Hes) & Hes' & (Hev & Hbefore) & Hafter).
      split_and!; try done.
      eapply Forall_impl; [exact Hafter|]. intros b Hb. simpl in *.
      by eapply comp_trans.
Qed.

Lemma l_sorted_insert es k x :
  l_sorted comp es → l_sorted comp (l_insert comp es k x).
Proof.
  induction es as [|e es IH]; simpl; [done|].
  intros [He Hes].
  destruct (comp k (fst e)) eqn:Hke.
  - simpl. split_and!; try done. constructor; [done|].
    eapply Forall_impl; [exact He|]. intros b Hb. simpl in *.
    by eapply comp_trans.
  - destruct (comp (fst e) k) eqn:Hek; simpl; [|done].
    split; [|by apply IH]. by apply Forall_l_insert.
Qed.

Lemma all_keys_elements (P : Key → Prop) s :
  all_keys P s ↔ Forall (λ e, P (fst e)) (s_elements s).
Proof.
  induction s as [|l IHl v n r IHr]; simpl.
  - by rewrite Forall_nil.
  - by rewrite Forall_app, Forall_cons, IHl, IHr.
Qed.

Lemma bst_inv_sorted s : bst_inv comp s ↔ l_sorted comp (s_elements s).
Proof.
  induction s as [|l IHl v n r IHr]; simpl; [done|].
  rewrite l_sorted_app, !all_keys_elements, IHl, IHr. tauto.
Qed.

Lemma s_elements_balance v l r :
  s_elements (s_balance balance_c prefer_single v l r)
  = s_elements l ++ v :: s_elements r.
Proof.
  unfold s_balance.
  destruct (balance_c * s_size l + 1 <? s_size r).
  - destruct r as [|rl rv rn rr]; [done|].
    destruct (s_is_nil rl || prefer_single (s_size rl) (s_size rr)).
    + by repeat (simpl; rewrite <- ?app_assoc).
    + destruct rl as [|rll rlv rln rlr]; [done|].
      by repeat (simpl; rewrite <- ?app_assoc).
  - destruct (balance_c * s_size r + 1 <? s_size l); [|done].
    destruct l as [|ll lv ln lr]; [done|].
    destruct (s_is_nil lr || prefer_single (s_size lr) (s_size ll)).
    + by repeat (simpl; rewrite <- ?app_assoc).
    + destruct lr as [|lrl lrv lrn lrr]; [done|].
      by repeat (simpl; rewrite <- ?app_assoc).
Qed.

Local Abbreviation s_insert' := (s_insert comp balance_c prefer_single).

(** Insertion follows the path of the lookup: a key is added exactly when
    the lookup fails. *)
Lemma s_insert_flag s k x :
  (s_insert' s k x).2 = if s_find comp s k is None then true else false.
Proof.
  induction s as [|l IHl v n r IHr]; simpl; [done|].
  destruct (comp k (fst v)).
  { destruct (s_insert' l k x) as [l' [|]]; simpl in *; by rewrite <- IHl. }
  destruct (comp (fst v) k); [|done].
  destruct (s_insert' r k x) as [r' [|]]; simpl in *; by rewrite <- IHr.
Qed.

Lemma s_insert_unchanged s k x :
  (s_insert' s k x).2 = false → (s_insert' s k x).1 = s.
Proof.
  destruct s as [|l v n r]; simpl; [done|].
  destruct (comp k (fst v)).
  { by destruct (s_insert' l k x) as [l' [|]]. }
  destruct (comp (fst v) k); [|done].
  by destruct (s_insert' r k x) as [r' [|]].
Qed.

Lemma s_find_elements s k :
  bst_inv comp s → s_find comp s k = l_find comp (s_elements s) k.
Proof.
  induction s as [|l IHl v n r IHr]; simpl; [done|].
  intros (Hbefore & Hafter & Hl & Hr).
  apply all_keys_elements in Hbefore.
  destruct (comp k (fst v)) eqn:Hkv.
  - rewrite l_find_app_lt by done. by apply IHl.
  - rewrite l_find_app_ge by done. simpl. rewrite Hkv.
    destruct (comp (fst v) k); [by apply IHr|done].
Qed.

Lemma s_elements_insert s k x :
  bst_inv comp s →
  s_elements (s_insert' s k x).1 = l_insert comp (s_elements s) k x.
Proof.
  induction s as [|l IHl v n r IHr]; simpl; [done|].
  intros (Hbefore & Hafter & Hl & Hr).
  apply all_keys_elements in Hbefore.
  destruct (comp k (fst v)) eqn:Hkv.
  { rewrite l_insert_app_lt by done. rewrite <- (IHl Hl).
    pose proof (s_insert_unchanged l k x) as Hsame.
    destruct (s_insert' l k x) as [l' [|]]; simpl in *.
    - apply s_elements_balance.
    - by rewrite Hsame. }
  rewrite l_insert_app_ge by done. simpl. rewrite Hkv.
  destruct (comp (fst v) k); [|done].
  rewrite <- (IHr Hr).
  pose proof (s_insert_unchanged r k x) as Hsame.
  destruct (s_insert' r k x) as [r' [|]]; simpl in *.
  - apply s_elements_balance.
  - by rewrite Hsame.
Qed.

Lemma bst_inv_insert s k x : bst_inv comp s → bst_inv comp (s_insert' s k x).1.
Proof.
  intros Hs. apply bst_inv_sorted. rewrite s_elements_insert by done.
  apply l_sorted_insert. by apply bst_inv_sorted.
Qed.

Lemma s_find_insert s k x :
  bst_inv comp s → s_find comp s k = None →
  s_find comp (s_insert' s k x).1 k = Some x.
Proof.
  intros Hs Hnone.
  rewrite s_find_elements by by apply bst_inv_insert.
  rewrite s_elements_insert by done.
  apply l_find_insert. by rewrite <- s_find_elements.
Qed.

(** C5: let [v1] be a handle on a tree with the size and ordering
    invariants and [k] a key whose lookup in [v1] fails.  Then
    [v1.insert(k, x)] returns a handle [v2] with the flag "added", the
    lookup of [k] in [v2] yields [x], and the size of [v2] is the size of
    [v1] plus one. *)
Theorem insert_then_find h (v1 : map) s k x :
  is_tree h (map_root v1) s → size_inv s → bst_inv comp s →
  eval (map_find comp v1 k) h = Ok None →
  ∃ (v2 : map) h' n,
    map_insert comp balance_c prefer_single v1 k x h = Ok ((v2, true), h')
    ∧ eval (map_find comp v2 k) h' = Ok (Some x)
    ∧ eval (size v1) h = Ok n
    ∧ eval (size v2) h' = Ok (n + 1).
Proof.
  intros Hs Hsize Hbst Habsent.
  assert (s_find comp s k = None) as Hnone.
  { destruct (map_find_spec comp h v1 s k Hs Hsize) as (o & ? & Hfind & _ & -> & _).
    unfold eval in Habsent. rewrite Hfind in Habsent. congruence. }
  destruct (map_insert_spec comp balance_c prefer_single h v1 s k x Hs Hsize)
    as ([v2 added] & h' & Hinsert & _ & Hs2 & Hadded).
  simpl in Hs2, Hadded.
  rewrite s_insert_flag, Hnone in Hadded. subst added.
  destruct (size_inv_insert comp balance_c prefer_single s k x Hsize)
    as [Hsize2 Hcount].
  rewrite s_insert_flag, Hnone in Hcount.
  exists v2, h', (s_size s). split_and!.
  - done.
  - apply eval_returns.
    eapply returns_mono; [by apply (map_find_spec comp h' v2 _ k Hs2)|].
    intros o ? _ [-> _]. by apply s_find_insert.
  - apply eval_returns.
    eapply returns_mono; [by apply size_spec|]. by intros ? ? _ [-> _].
  - apply eval_returns.
    eapply returns_mono; [by apply (size_spec h' v2 _ Hs2)|].
    by intros ? ? _ [-> _].
Qed.

End Ordering.

(** * The design's scenarios and the theorems at concrete maps *)

(** Empty map, insert (1, 10), (2, 20), (3, 30): the sequence is in order
    and the size is 3.  Erasing 2 from that handle gives (1, 10), (3, 30),
    and the three-element handle still yields its three pairs. *)
Example scenario_insert_erase :
  ∃ v3 h3 v4 h4,
    apply_operations Z.ltb example_c example_single map_ctor scenario_inserts ∅
    = Ok (v3, h3)
    ∧ eval (map_to_list v3) h3 = Ok [(1, 10); (2, 20); (3, 30)]%Z
    ∧ eval (size v3) h3 = Ok 3
    ∧ map_erase Z.ltb example_c example_single v3 2%Z h3 = Ok ((v4, true), h4)
    ∧ eval (map_to_list v4) h4 = Ok [(1, 10); (3, 30)]%Z
    ∧ eval (map_to_list v3) h4 = Ok [(1, 10); (2, 20); (3, 30)]%Z.
Proof.
  destruct (apply_operations Z.ltb example_c example_single map_ctor
              scenario_inserts ∅) as [[v3 h3]|] eqn:H3; [|by vm_compute in H3].
  destruct (map_erase Z.ltb example_c example_single v3 2%Z h3)
    as [[[v4 b] h4]|] eqn:H4.
  - exists v3, h3, v4, h4.
    vm_compute in H3. injection H3 as <- <-.
    vm_compute in H4. injection H4 as <- <- <-.
    by vm_compute.
  - vm_compute in H3. injection H3 as <- <-. by vm_compute in H4.
Qed.

Lemma Zlt_irrefl (a : Z) : (a <? a)%Z = false.
Proof. apply Z.ltb_irrefl. Qed.

Lemma Zlt_trans (a b c : Z) :
  (a <? b)%Z = true → (b <? c)%Z = true → (a <? c)%Z = true.
Proof. rewrite !Z.ltb_lt. lia. Qed.

Lemma Zlt_cotrans (a b c : Z) :
  (a <? c)%Z = true → (a <? b)%Z = true ∨ (b <? c)%Z = true.
Proof. rewrite !Z.ltb_lt. lia. Qed.

Lemma pair_heap_is_tree : is_tree pair_heap (map_root pair_map) pair_shape.
Proof.
  exists 1%positive, (Some 2%positive), None. split_and!; try done.
  exists 2%positive, None, None. done.
Defined.

(** The two-node handle, an insertion of 3 and four further operations. *)
Lemma old_version_unchanged_witness :
  is_tree pair_heap (map_root pair_map) pair_shape
  ∧ size_inv pair_shape
  ∧ ∃ (v2 : map) h' (v3 : map) h'',
      apply_operation Z.ltb example_c example_single pair_map
        (OpInsert 3 30)%Z pair_heap = Ok (v2, h')
      ∧ apply_operations Z.ltb example_c example_single v2 scenario_further h'
        = Ok (v3, h'')
      ∧ eval (map_to_list pair_map) pair_heap = Ok (s_elements pair_shape)
      ∧ eval (map_to_list pair_map) h' = Ok (s_elements pair_shape)
      ∧ eval (map_to_list pair_map) h'' = Ok (s_elements pair_shape)
      ∧ is_tree h' (map_root pair_map) pair_shape
      ∧ is_tree h'' (map_root pair_map) pair_shape.
Proof.
  split_and!.
  - exact pair_heap_is_tree.
  - simpl. done.
  - apply (old_version_unchanged Z.ltb example_c example_single pair_heap
             pair_map pair_shape (OpInsert 3 30)%Z scenario_further).
    + exact pair_heap_is_tree.
    + simpl. done.
Defined.

(** The two-node handle and the absent key 3. *)
Lemma insert_then_find_witness :
  is_tree pair_heap (map_root pair_map) pair_shape
  ∧ size_inv pair_shape
  ∧ bst_inv Z.ltb pair_shape
  ∧ eval (map_find Z.ltb pair_map 3%Z) pair_heap = Ok None
  ∧ ∃ (v2 : map) h' n,
      map_insert Z.ltb example_c example_single pair_map 3%Z 30%Z pair_heap
      = Ok ((v2, true), h')
      ∧ eval (map_find Z.ltb v2 3%Z) h' = Ok (Some 30%Z)
      ∧ eval (size pair_map) pair_heap = Ok n
      ∧ eval (size v2) h' = Ok (n + 1).
Proof.
  split_and!.
  - exact pair_heap_is_tree.
  - simpl. done.
  - simpl. done.
  - reflexivity.
  - apply (insert_then_find Z.ltb example_c example_single
             Zlt_irrefl Zlt_trans Zlt_cotrans
             pair_heap pair_map pair_shape 3%Z 30%Z).
    + exact pair_heap_is_tree.
    + simpl. done.
    + simpl. done.
    + reflexivity.
Defined.

(** * Cursor arithmetic *)

Lemma size_t_modulus_pos : 1 < size_t_modulus.
Proof. done. Qed.

Lemma size_t_succ_lt i : size_t_succ i < size_t_modulus.
Proof. apply N.mod_lt. done. Qed.

Lemma size_t_pred_lt i : size_t_pred i < size_t_modulus.
Proof. apply N.mod_lt. done. Qed.

Lemma size_t_pred_succ i : i < size_t_modulus → size_t_pred (size_t_succ i) = i.
Proof.
  intros Hi. unfold size_t_pred, size_t_succ.
  pose proof size_t_modulus_pos as Hm.
  rewrite N.Div0.add_mod_idemp_l.
  replace (i + 1 + (size_t_modulus - 1)) with (i + 1 * size_t_modulus) by lia.
  rewrite N.Div0.mod_add. by apply N.mod_small.
Qed.

Lemma size_t_succ_pred i : i < size_t_modulus → size_t_succ (size_t_pred i) = i.
Proof.
  intros Hi. unfold size_t_pred, size_t_succ.
  pose proof size_t_modulus_pos as Hm.
  rewrite N.Div0.add_mod_idemp_l.
  replace (i + (size_t_modulus - 1) + 1) with (i + 1 * size_t_modulus) by lia.
  rewrite N.Div0.mod_add. by apply N.mod_small.
Qed.

Lemma size_t_succ_wrap i :
  i < size_t_modulus →
  size_t_succ i = if i =? size_t_modulus - 1 then 0 else i + 1.
Proof.
  intros Hi. unfold size_t_succ. pose proof size_t_modulus_pos as Hm.
  destruct (i =? size_t_modulus - 1) eqn:Hlast.
  - apply N.eqb_eq in Hlast. subst i.
    replace (size_t_modulus - 1 + 1) with size_t_modulus by lia.
    apply N.Div0.mod_same.
  - apply N.eqb_neq in Hlast. apply N.mod_small. lia.
Qed.

Lemma size_t_pred_wrap i :
  i < size_t_modulus →
  size_t_pred i = if i =? 0 then size_t_modulus - 1 else i - 1.
Proof.
  intros Hi. unfold size_t_pred. pose proof size_t_modulus_pos as Hm.
  destruct (i =? 0) eqn:Hfirst.
  - apply N.eqb_eq in Hfirst. subst i. apply N.mod_small. lia.
  - apply N.eqb_neq in Hfirst.
    replace (i + (size_t_modulus - 1)) with (i - 1 + 1 * size_t_modulus) by lia.
    rewrite N.Div0.mod_add. apply N.mod_small. lia.
Qed.

Lemma iterator_incr_iter_index k (it : iterator) :
  it_index it < size_t_modulus →
  it_index (N.iter k iterator_incr it) = (it_index it + k) mod size_t_modulus.
Proof.
  intros Hi. induction k as [|k IH] using N.peano_ind.
  - simpl. rewrite N.add_0_r. symmetry. by apply N.mod_small.
  - rewrite N.iter_succ. simpl. rewrite IH. unfold size_t_succ.
    rewrite N.Div0.add_mod_idemp_l. f_equal. lia.
Qed.

Lemma iterator_incr_iter_root k (it : iterator) :
  it_root (N.iter k iterator_incr it) = it_root it.
Proof.
  induction k as [|k IH] using N.peano_ind; [done|].
  by rewrite N.iter_succ.
Qed.

Lemma iterator_decr_incr (it : iterator) :
  it_index it < size_t_modulus → iterator_decr (iterator_incr it) = it.
Proof.
  intros Hi. destruct it as [i r]. unfold iterator_decr, iterator_incr. simpl in *.
  by rewrite size_t_pred_succ.
Qed.

Lemma iterator_incr_decr (it : iterator) :
  it_index it < size_t_modulus → iterator_incr (iterator_decr it) = it.
Proof.
  intros Hi. destruct it as [i r]. unfold iterator_decr, iterator_incr. simpl in *.
  by rewrite size_t_succ_pred.
Qed.

(** X1: for a cursor whose index is a [size_t] value, [--] undoes [++] and
    [++] undoes [--]; [++] moves the index up by one and wraps from the
    largest [size_t] to 0, [--] moves it down by one and wraps from 0 to the
    largest [size_t]; both leave the root alone. *)
Theorem iterator_step_round_trip (it : iterator) :
  it_index it < size_t_modulus →
  iterator_decr (iterator_incr it) = it
  ∧ iterator_incr (iterator_decr it) = it
  ∧ it_index (iterator_incr it)
    = (if it_index it =? size_t_modulus - 1 then 0 else it_index it + 1)
  ∧ it_index (iterator_decr it)
    = (if it_index it =? 0 then size_t_modulus - 1 else it_index it - 1)
  ∧ it_root (iterator_incr it) = it_root it
  ∧ it_root (iterator_decr it) = it_root it.
Proof.
  intros Hi. split_and!; try done.
  - by apply iterator_decr_incr.
  - by apply iterator_incr_decr.
  - by apply size_t_succ_wrap.
  - by apply size_t_pred_wrap.
Qed.

(** X2: [k] increments of a cursor with a [size_t] index move the index by
    [k] modulo 2^64 and keep the root; [k] decrements afterwards bring the
    cursor back, and 2^64 increments are a full turn. *)
Theorem iterator_advance (k : N) (it : iterator) :
  it_index it < size_t_modulus →
  it_index (N.iter k iterator_incr it) = (it_index it + k) mod size_t_modulus
  ∧ it_root (N.iter k iterator_incr it) = it_root it
  ∧ N.iter k iterator_decr (N.iter k iterator_incr it) = it
  ∧ N.iter size_t_modulus iterator_incr it = it.
Proof.
  intros Hi. split_and!.
  - by apply iterator_incr_iter_index.
  - apply iterator_incr_iter_root.
  - induction k as [|k IH] using N.peano_ind; [done|].
    rewrite (N.iter_succ k _ iterator_incr), (N.iter_succ_r k _ iterator_decr).
    rewrite iterator_decr_incr; [done|].
    rewrite iterator_incr_iter_index by done. apply N.mod_lt. done.
  - pose proof (iterator_incr_iter_index size_t_modulus it Hi) as Hindex.
    pose proof (iterator_incr_iter_root size_t_modulus it) as Hroot.
    destruct (N.iter size_t_modulus iterator_incr it) as [i r].
    destruct it as [i0 r0]. simpl in *. subst r.
    rewrite Hindex.
    replace (i0 + size_t_modulus) with (i0 + 1 * size_t_modulus) by lia.
    rewrite N.Div0.mod_add. by rewrite N.mod_small.
Qed.


(** X4: [it++] returns the cursor as it was and leaves it advanced; a
    following [it--] returns the advanced cursor and leaves the cursor where
    it started, for a [size_t] index.  The same holds for
    [const_iterator]. *)
Theorem iterator_post_step (it : iterator) (cit : const_iterator) :
  it_index it < size_t_modulus → cit_index cit < size_t_modulus →
  (iterator_post_incr it).1 = it
  ∧ (iterator_post_incr it).2 = iterator_incr it
  ∧ (iterator_post_decr (iterator_post_incr it).2).1 = iterator_incr it
  ∧ (iterator_post_decr (iterator_post_incr it).2).2 = it
  ∧ (const_iterator_post_incr cit).1 = cit
  ∧ (const_iterator_post_decr (const_iterator_post_incr cit).2).1
    = const_iterator_incr cit
  ∧ (const_iterator_post_decr (const_iterator_post_incr cit).2).2 = cit.
Proof.
  intros Hi Hci. destruct it as [i r], cit as [ci cr]. simpl in *.
  unfold iterator_copy, iterator_decr, iterator_incr,
    const_iterator_decr, const_iterator_incr. simpl.
  rewrite !size_t_pred_succ by done. done.
Qed.


Lemma iterator_step_round_trip_witness :
  it_index cursor_last < size_t_modulus
  ∧ iterator_decr (iterator_incr cursor_last) = cursor_last
  ∧ it_index (iterator_incr cursor_last) = 0.
Proof.
  split; [done|].
  destruct (iterator_step_round_trip cursor_last) as (H1 & _ & H3 & _); [done|].
  split; [exact H1|exact H3].
Defined.

Lemma iterator_advance_witness :
  it_index cursor_last < size_t_modulus
  ∧ it_index (N.iter 5 iterator_incr cursor_last) = 4
  ∧ N.iter 5 iterator_decr (N.iter 5 iterator_incr cursor_last) = cursor_last.
Proof.
  split; [done|].
  destruct (iterator_advance 5 cursor_last) as (H1 & _ & H3 & _); [done|].
  split; [exact H1|exact H3].
Defined.


Lemma iterator_post_step_witness :
  it_index cursor_last < size_t_modulus
  ∧ cit_index const_cursor_last < size_t_modulus
  ∧ (iterator_post_decr (iterator_post_incr cursor_last).2).2 = cursor_last
  ∧ (const_iterator_post_decr (const_iterator_post_incr const_cursor_last).2).2
    = const_cursor_last.
Proof.
  split; [done|]. split; [done|].
  destruct (iterator_post_step cursor_last const_cursor_last)
    as (_ & _ & _ & H4 & _ & _ & H7); [done|done|].
  split; [exact H4|exact H7].
Defined.

(** * What the loop of [node::operator+] does on a finite tree *)

Section Descent.
Context {Key T : Type}.

Implicit Types (h : gmap addr (@node Key T)) (nd : @node Key T).
Implicit Types (s l r : @shape Key T) (p : ptr) (a b : addr) (rhs : N).

Lemma bind_read_some {A} h a nd (k : node → M node A) :
  h !! a = Some nd → bind (read a) k h = k nd h.
Proof. intros Ha. unfold bind, read. by rewrite Ha. Qed.

Lemma bind_ret {A B} (x : A) (k : A → M node B) h : bind (ret x) k h = k x h.
Proof. done. Qed.

Lemma bind_assoc {A B C} (mx : M node A) (f : A → M node B) (g : B → M node C) h :
  bind (bind mx f) g h = bind mx (λ x, bind (f x) g) h.
Proof. unfold bind. by destruct (mx h) as [[x h']|]. Qed.

(** One iteration from a node whose right subtree is the finite tree [r]:
    the loop goes on from the right child or from the left child of the
    right child, so it stays inside [r]. *)
Lemma node_plus_loop_right h fuel a nd r rs rhs :
  h !! a = Some nd → tree_nodes h (right nd) r rs → (s_height r < fuel)%nat →
  node_plus_loop fuel (Some a) rhs h = Err NullDeref
  ∨ ∃ b, node_plus_loop fuel (Some a) rhs h = Ok (Some b, h) ∧ b ∈ a :: rs.
Proof.
  revert a nd r rs rhs.
  induction fuel as [|fuel IH]; intros a nd r rs rhs Ha Hr Hfuel; [lia|].
  cbn [node_plus_loop deref]. rewrite (bind_read_some h a nd) by done.
  destruct r as [|l' v' n' r'].
  { destruct Hr as [-> _]. by left. }
  destruct Hr as (ra & pl' & pr' & ls' & rs' & -> & Hra & Hl' & Hr' & ->).
  simpl in Hfuel. cbn [deref]. rewrite (bind_read_some h ra _) by done.
  cbn [left _l].
  assert (∀ rhs', node_plus_loop fuel (Some ra) rhs' h = Err NullDeref
            ∨ ∃ b, node_plus_loop fuel (Some ra) rhs' h = Ok (Some b, h)
                   ∧ b ∈ a :: ls' ++ ra :: rs') as Hfrom_right.
  { intros rhs'.
    destruct (IH ra _ r' rs' rhs' Hra Hr' ltac:(lia)) as [?|(b & ? & Hb)]; [by left|].
    right. exists b. split; [done|].
    rewrite elem_of_cons, elem_of_app. by right; right. }
  destruct l' as [|ll lv ln lr].
  - destruct Hl' as [-> ->]. rewrite bind_ret.
    destruct (negb (rhs =? 0) || ptr_eqb (Some ra) None); [apply Hfrom_right|].
    right. exists a. split; [done|]. apply elem_of_cons. by left.
  - destruct Hl' as (la & pll & plr & lls & lrs & -> & Hla & Hll & Hlr & ->).
    simpl in Hfuel. rewrite bind_assoc, (bind_read_some h la _) by done. cbn [_n].
    destruct (rhs <? ln); rewrite bind_ret.
    + destruct (negb (rhs =? 0) || ptr_eqb (Some la) (Some la)).
      * destruct (IH la _ lr lrs rhs Hla Hlr ltac:(lia)) as [?|(b & ? & Hb)];
          [by left|].
        right. exists b. split; [done|].
        rewrite elem_of_cons, !elem_of_app. by right; left; right.
      * right. exists a. split; [done|]. apply elem_of_cons. by left.
    + destruct (negb (rhs - ln =? 0) || ptr_eqb (Some ra) (Some la));
        [apply Hfrom_right|].
      right. exists a. split; [done|]. apply elem_of_cons. by left.
Qed.

(** X6: from a node whose right subtree is a finite tree, the loop of
    [node::operator+] ends within height-many iterations for every index.
    It either dereferences a null pointer or returns the node itself or a
    node of its right subtree, never null and never a node from elsewhere,
    and it leaves the store as it was. *)
Theorem node_plus_stays_right h fuel a nd r rs rhs :
  h !! a = Some nd → tree_nodes h (right nd) r rs → (s_height r < fuel)%nat →
  node_plus fuel a rhs h = Err NullDeref
  ∨ ∃ b, node_plus fuel a rhs h = Ok (Some b, h) ∧ (b = a ∨ b ∈ rs).
Proof.
  intros Ha Hr Hfuel. unfold node_plus.
  destruct (node_plus_loop_right h fuel a nd r rs rhs Ha Hr Hfuel)
    as [?|(b & ? & Hb)]; [by left|].
  right. exists b. split; [done|]. by apply elem_of_cons.
Qed.

Lemma node_plus_loop_large h fuel a nd r rhs :
  h !! a = Some nd → is_tree h (right nd) r → size_inv r →
  s_size r < rhs → (s_height r < fuel)%nat →
  node_plus_loop fuel (Some a) rhs h = Err NullDeref.
Proof.
  revert a nd r rhs.
  induction fuel as [|fuel IH]; intros a nd r rhs Ha Hr Hinv Hrhs Hfuel; [lia|].
  cbn [node_plus_loop deref]. rewrite (bind_read_some h a nd) by done.
  destruct r as [|l' v' n' r'].
  { simpl in Hr. by rewrite Hr. }
  destruct Hr as (ra & pl' & pr' & -> & Hra & Hl' & Hr').
  destruct Hinv as (-> & Hinvl & Hinvr).
  simpl in Hfuel, Hrhs. cbn [deref]. rewrite (bind_read_some h ra _) by done.
  cbn [left _l].
  destruct l' as [|ll lv ln lr].
  - simpl in Hl'. subst pl'. rewrite bind_ret. simpl in Hrhs.
    replace (rhs =? 0) with false by (symmetry; apply N.eqb_neq; lia).
    cbn [negb orb]. apply (IH ra _ r' rhs Hra Hr' Hinvr); lia.
  - destruct Hl' as (la & pll & plr & -> & Hla & _). simpl in Hrhs.
    rewrite bind_assoc, (bind_read_some h la _) by done. cbn [_n].
    replace (rhs <? ln) with false by (symmetry; apply N.ltb_ge; lia).
    rewrite bind_ret.
    replace (rhs - ln =? 0) with false by (symmetry; apply N.eqb_neq; lia).
    cbn [negb orb]. apply (IH ra _ r' (rhs - ln) Hra Hr' Hinvr); lia.
Qed.

(** X7: on a finite tree with the size invariant, [node::operator+] returns
    no node for an index above the count of the root's right subtree, which
    covers every index at or beyond the size of the tree: the loop walks
    down the right spine and dereferences the null pointer at its end. *)
Theorem node_plus_large_index h fuel a l v n r rhs :
  is_tree h (Some a) (SBin l v n r) → size_inv (SBin l v n r) →
  s_size r < rhs → (s_height r < fuel)%nat →
  eval (node_plus fuel a rhs) h = Err NullDeref.
Proof.
  intros (? & pl & pr & [= <-] & Ha & _ & Hr) (_ & _ & Hinvr) Hrhs Hfuel.
  unfold eval, node_plus.
  by rewrite (node_plus_loop_large h fuel a _ r rhs Ha Hr Hinvr Hrhs Hfuel).
Qed.

Lemma node_plus_loop_frame h h' fuel p rhs q h0 :
  h ⊆ h' → node_plus_loop fuel p rhs h = Ok (q, h0) →
  h0 = h ∧ (∃ b, q = Some b ∧ is_Some (h !! b))
  ∧ node_plus_loop fuel p rhs h' = Ok (q, h').
Proof.
  intros Hsub. revert p rhs.
  induction fuel as [|fuel IH]; intros p rhs; [done|].
  cbn [node_plus_loop]. destruct p as [a|]; [|done]. cbn [deref].
  destruct (h !! a) as [nd|] eqn:Ha; [|by unfold bind, read; rewrite Ha].
  rewrite !(bind_read_some _ a nd) by (done || by eapply lookup_weaken).
  destruct (right nd) as [ra|]; [|done]. cbn [deref].
  destruct (h !! ra) as [nr|] eqn:Hra; [|by unfold bind, read; rewrite Hra].
  rewrite !(bind_read_some _ ra nr) by (done || by eapply lookup_weaken).
  destruct (left nr) as [la|].
  - destruct (h !! la) as [ln|] eqn:Hla;
      [|by rewrite bind_assoc; unfold bind, read; rewrite Hla].
    rewrite !bind_assoc.
    rewrite !(bind_read_some _ la ln) by (done || by eapply lookup_weaken).
    destruct (rhs <? _n ln); rewrite !bind_ret.
    + destruct (negb (rhs =? 0) || ptr_eqb (Some la) (Some la)); [apply IH|].
      intros [= <- <-]. eauto.
    + destruct (negb (rhs - _n ln =? 0) || ptr_eqb (Some ra) (Some la));
        [apply IH|].
      intros [= <- <-]. eauto.
  - rewrite !bind_ret.
    destruct (negb (rhs =? 0) || ptr_eqb (Some ra) None); [apply IH|].
    intros [= <- <-]. eauto.
Qed.

(** X8: [node::operator+] only reads.  When it returns a pointer, in any
    store, the store is the one it started from, the pointer is not null and
    names a node of the store, and the same pointer is returned in every
    store that has the same nodes and more. *)
Theorem node_plus_frame h h' fuel a rhs q h0 :
  h ⊆ h' → node_plus fuel a rhs h = Ok (q, h0) →
  h0 = h ∧ (∃ b, q = Some b ∧ is_Some (h !! b))
  ∧ node_plus fuel a rhs h' = Ok (q, h').
Proof. apply node_plus_loop_frame. Qed.

(** X9: for a handle on a finite tree with the size invariant, [size()] is
    the number of pairs of the tree and [empty()] tells whether there is
    none. *)
Theorem size_counts_elements h (m : map) s :
  is_tree h (map_root m) s → size_inv s →
  eval (size m) h = Ok (N.of_nat (length (s_elements s)))
  ∧ eval (empty m) h = Ok (bool_decide (s_elements s = [])).
Proof.
  intros Hs Hinv.
  destruct (size_spec h m s Hs) as (n & ? & Hsize & _ & -> & ->).
  rewrite (size_inv_length s Hinv) in Hsize.
  unfold eval, empty, bind. rewrite Hsize. split; [done|]. f_equal.
  destruct (s_elements s) as [|e es]; [done|].
  by rewrite bool_decide_eq_false_2.
Qed.

(** X10: [size()] and [empty()] only read the root node: they leave the
    store as it was and give the same answers in every store that has the
    same nodes and more. *)
Theorem size_frame h h' (m : map) n h0 :
  h ⊆ h' → size m h = Ok (n, h0) →
  h0 = h ∧ size m h' = Ok (n, h')
  ∧ empty m h = Ok (n =? 0, h) ∧ empty m h' = Ok (n =? 0, h').
Proof.
  intros Hsub. unfold empty, bind. rewrite !size_unfold.
  destruct (map_root m) as [a|].
  - destruct (h !! a) as [nd|] eqn:Ha; [|done].
    rewrite (lookup_weaken _ _ _ _ Ha Hsub). by intros [= <- <-].
  - by intros [= <- <-].
Qed.

End Descent.

Lemma quad_right_nodes :
  tree_nodes quad_heap (Some 2%positive) quad_right_shape [3; 2; 4]%positive.
Proof.
  exists 2%positive, (Some 3%positive), (Some 4%positive), [3%positive], [4%positive].
  split_and!; try done.
  - exists 3%positive, None, None, [], []. done.
  - exists 4%positive, None, None, [], []. done.
Defined.

Lemma quad_heap_is_tree : is_tree quad_heap (Some 1%positive) quad_shape.
Proof.
  exists 1%positive, None, (Some 2%positive). split_and!; try done.
  exists 2%positive, (Some 3%positive), (Some 4%positive). split_and!; try done.
  - exists 3%positive, None, None. done.
  - exists 4%positive, None, None. done.
Defined.

Lemma quad_heap_more_extends : quad_heap ⊆ quad_heap_more.
Proof. apply insert_subseteq. reflexivity. Defined.

(** The four-node tree, index 1: the loop returns the root. *)
Lemma node_plus_stays_right_witness :
  quad_heap !! 1%positive = Some (int_node 1 10 4 None (Some 2%positive))
  ∧ (node_plus 3 1%positive 1 quad_heap = Err NullDeref
     ∨ ∃ b, node_plus 3 1%positive 1 quad_heap = Ok (Some b, quad_heap)
            ∧ (b = 1%positive ∨ b ∈ [3; 2; 4]%positive)).
Proof.
  split; [reflexivity|].
  apply (node_plus_stays_right quad_heap 3 1%positive
           (int_node 1 10 4 None (Some 2%positive)) quad_right_shape
           [3; 2; 4]%positive 1).
  - reflexivity.
  - exact quad_right_nodes.
  - simpl. lia.
Defined.

(** The four-node tree, index 4, its size. *)
Lemma node_plus_large_index_witness :
  is_tree quad_heap (Some 1%positive) quad_shape
  ∧ size_inv quad_shape
  ∧ eval (node_plus 3 1%positive 4) quad_heap = Err NullDeref.
Proof.
  split; [exact quad_heap_is_tree|]. split; [by simpl|].
  apply (node_plus_large_index quad_heap 3 1%positive SNil (1, 10)%Z 4
           quad_right_shape 4).
  - exact quad_heap_is_tree.
  - by simpl.
  - simpl. lia.
  - simpl. lia.
Defined.

Lemma node_plus_frame_witness :
  quad_heap ⊆ quad_heap_more
  ∧ node_plus 3 1%positive 1 quad_heap = Ok (Some 1%positive, quad_heap)
  ∧ node_plus 3 1%positive 1 quad_heap_more = Ok (Some 1%positive, quad_heap_more).
Proof.
  split; [exact quad_heap_more_extends|]. split; [reflexivity|].
  destruct (node_plus_frame quad_heap quad_heap_more 3 1%positive 1
              (Some 1%positive) quad_heap) as (_ & _ & H3).
  - exact quad_heap_more_extends.
  - reflexivity.
  - exact H3.
Defined.

Lemma size_counts_elements_witness :
  is_tree quad_heap (map_root quad_map) quad_shape
  ∧ size_inv quad_shape
  ∧ eval (size quad_map) quad_heap = Ok 4
  ∧ eval (empty quad_map) quad_heap = Ok false.
Proof.
  split; [exact quad_heap_is_tree|]. split; [by simpl|].
  apply (size_counts_elements quad_heap quad_map quad_shape).
  - exact quad_heap_is_tree.
  - by simpl.
Defined.

Lemma size_frame_witness :
  quad_heap ⊆ quad_heap_more
  ∧ size quad_map quad_heap = Ok (4, quad_heap)
  ∧ size quad_map quad_heap_more = Ok (4, quad_heap_more)
  ∧ empty quad_map quad_heap_more = Ok (false, quad_heap_more).
Proof.
  split; [exact quad_heap_more_extends|]. split; [reflexivity|].
  destruct (size_frame quad_heap quad_heap_more quad_map 4 quad_heap)
    as (_ & H2 & _ & H4).
  - exact quad_heap_more_extends.
  - reflexivity.
  - split; [exact H2|exact H4].
Defined.

(** X11: the steps of [const_iterator] behave like those of [iterator]: for
    a [size_t] index [--] undoes [++] and [++] undoes [--], with the wrap at
    the two ends of the range; stepping both sides of [==] does not change
    its answer, and a step always moves the cursor. *)
Theorem const_iterator_steps (x y : const_iterator) :
  cit_index x < size_t_modulus → cit_index y < size_t_modulus →
  const_iterator_decr (const_iterator_incr x) = x
  ∧ const_iterator_incr (const_iterator_decr x) = x
  ∧ cit_index (const_iterator_incr x)
    = (if cit_index x =? size_t_modulus - 1 then 0 else cit_index x + 1)
  ∧ cit_index (const_iterator_decr x)
    = (if cit_index x =? 0 then size_t_modulus - 1 else cit_index x - 1)
  ∧ const_iterator_eq (const_iterator_incr x) (const_iterator_incr y)
    = const_iterator_eq x y
  ∧ const_iterator_eq (const_iterator_decr x) (const_iterator_decr y)
    = const_iterator_eq x y
  ∧ const_iterator_ne (const_iterator_incr x) x = true
  ∧ const_iterator_ne (const_iterator_decr x) x = true.
Proof.
  intros Hx Hy. destruct x as [i r], y as [j q].
  unfold const_iterator_eq, const_iterator_ne, const_iterator_incr,
    const_iterator_decr. simpl in *.
  pose proof size_t_modulus_pos as Hm.
  split_and!.
  - by rewrite size_t_pred_succ.
  - by rewrite size_t_succ_pred.
  - by apply size_t_succ_wrap.
  - by apply size_t_pred_wrap.
  - destruct (i =? j) eqn:Hij.
    + apply N.eqb_eq in Hij. rewrite Hij. apply N.eqb_refl.
    + apply N.eqb_neq. apply N.eqb_neq in Hij. intros Heq. apply Hij.
      by rewrite <- (size_t_pred_succ i), Heq, size_t_pred_succ.
  - destruct (i =? j) eqn:Hij.
    + apply N.eqb_eq in Hij. rewrite Hij. apply N.eqb_refl.
    + apply N.eqb_neq. apply N.eqb_neq in Hij. intros Heq. apply Hij.
      by rewrite <- (size_t_succ_pred i), Heq, size_t_succ_pred.
  - apply negb_true_iff, N.eqb_neq. rewrite size_t_succ_wrap by done.
    destruct (i =? size_t_modulus - 1) eqn:Hlast; [|lia].
    apply N.eqb_eq in Hlast. lia.
  - apply negb_true_iff, N.eqb_neq. rewrite size_t_pred_wrap by done.
    destruct (i =? 0) eqn:Hfirst; [|apply N.eqb_neq in Hfirst; lia].
    apply N.eqb_eq in Hfirst. lia.
Qed.

Lemma const_iterator_steps_witness :
  cit_index const_cursor_last < size_t_modulus
  ∧ const_iterator_decr (const_iterator_incr const_cursor_last) = const_cursor_last
  ∧ cit_index (const_iterator_incr const_cursor_last) = 0.
Proof.
  split; [done|].
  destruct (const_iterator_steps const_cursor_last const_cursor_last)
    as (H1 & _ & H3 & _); [done|done|].
  split; [exact H1|exact H3].
Defined.
